(** * Deployment script of the token and the Dutch auction

    A shallow embedding of [deploy/deploy_testnet.py] together with the
    two collaborators it imports from the [simulation] module, which are
    described by the design document only: the auction factor solver
    ([getAuctionFactors]) and the bid simulation scheduler
    ([auction_simulation]).

    Layout:
    - [Py]        : the few Python built-ins the script relies on
                    (exceptions, [str.split], [int], slices, truthiness);
    - [Solver]    : the price function model and the two-point solver;
    - [Deploy]    : [main] as a program over the calls it makes to the
                    chain, with a logging interpreter;
    - [Scheduler] : the bid simulation state machine. *)

From Stdlib Require Import ZArith Lia List Ascii String.
From stdpp Require Import base list strings gmap.

Set Warnings "-register-all".

Local Open Scope Z_scope.

(** The process-wide scale, line 16: [multiplier = 10**18]. *)
Definition multiplier : Z := 10 ^ 18.

(* ------------------------------------------------------------------ *)
(** ** Python built-ins *)

Module Py.

(** Exceptions that can leave [main].  [Other] carries the class name of
    an exception raised by a collaborator. *)
Inductive exn : Type :=
| IndexError
| ValueError
| KeyError
| AssertionError
| Other (name : string).

(** Values handed to the contract factories. *)
Inductive pyval : Type :=
| VNone
| VInt (z : Z)
| VStr (s : string)
| VList (l : list pyval).

(** The error monad for the pure fragments. *)
Definition result (A : Type) : Type := exn + A.

Definition rbind {A B} (r : result A) (k : A -> result B) : result B :=
  match r with
  | inl e => inl e
  | inr a => k a
  end.

(** Truthiness of an optional string: [None] and [''] are falsy. *)
Definition truthy (o : option string) : bool :=
  match o with
  | None => false
  | Some EmptyString => false
  | Some (String _ _) => true
  end.

(** [s.split(sep)] for a one-character separator: never returns the
    empty list, and keeps empty fields. *)
Fixpoint split (sep : ascii) (s : string) : list string :=
  match s with
  | EmptyString => [EmptyString]
  | String c rest =>
      if Ascii.eqb c sep then EmptyString :: split sep rest
      else match split sep rest with
           | [] => [String c EmptyString]
           | field :: fields => String c field :: fields
           end
  end.

Definition comma : ascii := ","%char.

(** [l[i]] for a non-negative literal index. *)
Definition index {A} (l : list A) (i : nat) : result A :=
  match nth_error l i with
  | Some x => inr x
  | None => inl IndexError
  end.

(** [l[start:stop]] with integer bounds: a negative bound counts from the
    end, and both are clamped to the list. *)
Definition clamp (len i : Z) : Z :=
  if i <? 0 then Z.max 0 (i + len) else Z.min i len.

Definition slice {A} (l : list A) (start stop : Z) : list A :=
  let len := Z.of_nat (List.length l) in
  let lo := clamp len start in
  let hi := clamp len stop in
  firstn (Z.to_nat (hi - lo)) (skipn (Z.to_nat lo) l).

(** Texts: a [string] stands for the Python [str] with the same
    characters, each [ascii] being one character with a code below 256;
    texts with other characters have no counterpart here. *)

(** Whether a text is plain ASCII. *)
Definition is_ascii (s : string) : bool :=
  forallb (fun c => (nat_of_ascii c <? 128)%nat) (list_ascii_of_string s).

(** [int(s)] in base 10: surrounding whitespace is dropped, one sign is
    allowed, and single underscores may separate digits.  The whitespace
    [int] drops is tab, line feed, vertical tab, form feed, carriage
    return and space, and, of the characters from 128 on, next line
    (133) and no-break space (160); the separators 28 to 31 are not
    dropped.  The only decimal digits below 256 are "0" to "9". *)
Definition is_space (c : ascii) : bool :=
  let n := nat_of_ascii c in
  ((9 <=? n) && (n <=? 13) || (n =? 32) || (n =? 133) || (n =? 160))%nat.

Definition digit_of (c : ascii) : option Z :=
  let n := nat_of_ascii c in
  if ((48 <=? n) && (n <=? 57))%nat then Some (Z.of_nat n - 48) else None.

Fixpoint lstrip (l : list ascii) : list ascii :=
  match l with
  | c :: rest => if is_space c then lstrip rest else l
  | [] => []
  end.

Definition strip (l : list ascii) : list ascii :=
  rev (lstrip (rev (lstrip l))).

(** [digits acc after_digit l]: [after_digit] tells whether the previous
    character was a digit, the only place where an underscore may stand. *)
Fixpoint digits (acc : Z) (after_digit : bool) (l : list ascii) : option Z :=
  match l with
  | [] => if after_digit then Some acc else None
  | c :: rest =>
      match digit_of c with
      | Some d => digits (10 * acc + d) true rest
      | None =>
          if Ascii.eqb c "_"%char && after_digit
          then match rest with
               | [] => None
               | _ => digits acc false rest
               end
          else None
      end
  end.

Definition int_of_chars (l : list ascii) : option Z :=
  match strip l with
  | "-"%char :: rest => Z.opp <$> digits 0 false rest
  | "+"%char :: rest => digits 0 false rest
  | body => digits 0 false body
  end.

Definition int (s : string) : result Z :=
  match int_of_chars (list_ascii_of_string s) with
  | Some z => inr z
  | None => inl ValueError
  end.

End Py.

(* ------------------------------------------------------------------ *)
(** ** Price function model and auction factor solver *)

Module Solver.

(** Modelled from the spec: the on-chain price function is not part of
    the script; section 4.1 gives its assumed form
    [price(elapsed, factor, constant) = floor(factor * SCALE / (constant + elapsed))].
    [price_at] takes the scale explicitly, [price] fixes it to the
    process-wide constant. *)
Definition price_at (scale elapsed factor constant : Z) : Z :=
  factor * scale / (constant + elapsed).

Definition price (elapsed factor constant : Z) : Z :=
  price_at multiplier elapsed factor constant.

Inductive solve_error : Type :=
| InvalidSampleError
| DegenerateSampleError
| UnsolvablePriceModel.

(** The model is evaluated only where its divisor is not zero. *)
Definition reproduces (scale elapsed factor constant target : Z) : bool :=
  negb (constant + elapsed =? 0)
  && (price_at scale elapsed factor constant =? target).

(** Modelled from the spec: [getAuctionFactors] lives in the [simulation]
    module, which is not part of the script; section 4.2 gives its
    closed form
    [constant = (p2*t2 - p1*t1) / (p1 - p2)],
    [factor = p1*(constant + t1) / SCALE],
    its error conditions (negative inputs, equal prices) and the
    guarantee that the result is substituted back into the model and
    rejected when it does not reproduce both samples.  Divisions are
    integer (floor) divisions, as in section 4.1; a quotient by a zero
    scale is zero, as [Z.div] has it, and is then caught by the
    substitution check.  Where a sample is both negative and degenerate
    the document does not say which error wins; malformed input is
    reported first here. *)
Definition getAuctionFactors (p1 t1 p2 t2 scale : Z) : solve_error + (Z * Z) :=
  if (p1 <? 0) || (t1 <? 0) || (p2 <? 0) || (t2 <? 0) then
    inl InvalidSampleError
  else if p1 =? p2 then
    inl DegenerateSampleError
  else
    let constant := (p2 * t2 - p1 * t1) / (p1 - p2) in
    let factor := p1 * (constant + t1) / scale in
    if reproduces scale t1 factor constant p1
       && reproduces scale t2 factor constant p2
    then inr (factor, constant)
    else inl UnsolvablePriceModel.

End Solver.


(* ------------------------------------------------------------------ *)
(** ** The deployment script *)

Module Deploy.
Import Py.

(** The option bag built by click (lines 19-80); every option that has a
    default is an integer or a string, the others may be [None]. *)
Record kwargs : Type := {
  chain : string;
  owner : option string;
  supply : Z;
  price_factor : Z;
  price_constant : Z;
  price_points : option string;
  prealloc_addresses : option string;
  prealloc_amounts : option string;
  simulation : bool;
  bidders : Z;
  bids : Z;
  bid_price : Z;
  bid_interval : Z
}.

Definition defaults : kwargs := {|
  chain := "kovan";
  owner := None;
  supply := 10000000;
  price_factor := 6;
  price_constant := 66;
  price_points := None;
  prealloc_addresses := None;
  prealloc_amounts := None;
  simulation := false;
  bidders := 10;
  bids := 10;
  bid_price := 50000000000000000;
  bid_interval := 5
|}.

(** The same options with other values for [--price-factor] and
    [--price-constant]. *)
Definition set_price_options (pf pc : Z) (kw : kwargs) : kwargs := {|
  chain := chain kw;
  owner := owner kw;
  supply := supply kw;
  price_factor := pf;
  price_constant := pc;
  price_points := price_points kw;
  prealloc_addresses := prealloc_addresses kw;
  prealloc_amounts := prealloc_amounts kw;
  simulation := simulation kw;
  bidders := bidders kw;
  bids := bids kw;
  bid_price := bid_price kw;
  bid_interval := bid_interval kw
|}.

(** Every call [main] makes to something outside of it: populus, web3,
    the two contract factories and the imported helpers.  Console output
    is not part of the model. *)
Inductive call : Type :=
| Project_new                              (* line 82: Project() *)
| get_chain_enter (chain_name : string)    (* line 104: entering the with *)
| get_chain_exit                           (* line 104: leaving the with *)
| eth_accounts                             (* web3.eth.accounts *)
| createWallet                             (* line 119 *)
| get_contract_factory (name : string)     (* lines 142-143 *)
| Auction_deploy (sender : string) (args : list pyval)      (* line 146 *)
| Token_deploy (sender : string) (args : list pyval)        (* line 153 *)
| check_succesful_tx (txhash : string)     (* lines 148, 160, 170 *)
| auction_setup (sender : string) (auction_address token_address : pyval)
                                           (* line 169 *)
| token_totalSupply (token_address : pyval)                 (* line 173 *)
| auction_price (auction_address : pyval)                   (* line 174 *)
| personal_newAccount (password : string)                   (* line 183 *)
| auction_simulation (token_address auction_address : pyval) (sender : string)
    (bidder_addresses : list string) (bids_number bid_interval bid_start_price : Z)
                                           (* line 188 *).

(** What each call hands back when it does not raise. *)
Definition resp (c : call) : Type :=
  match c with
  | Project_new => unit
  | get_chain_enter _ => unit
  | get_chain_exit => unit
  | eth_accounts => list string
  | createWallet => (string * string)%type
  | get_contract_factory _ => unit
  | Auction_deploy _ _ => string
  | Token_deploy _ _ => string
  | check_succesful_tx _ => gmap string pyval
  | auction_setup _ _ _ => string
  | token_totalSupply _ => Z
  | auction_price _ => Z
  | personal_newAccount _ => string
  | auction_simulation _ _ _ _ _ _ _ => unit
  end.

(** Programs: a tree of calls whose continuation sees either the value
    returned or the exception raised. *)
Inductive prog (A : Type) : Type :=
| Ret (a : A)
| Raise (e : exn)
| Call (c : call) (k : result (resp c) -> prog A).

Arguments Ret {A} a.
Arguments Raise {A} e.
Arguments Call {A} c k.

Fixpoint bind {A B} (p : prog A) (f : A -> prog B) : prog B :=
  match p with
  | Ret a => f a
  | Raise e => Raise e
  | Call c k => Call c (fun r => bind (k r) f)
  end.

Definition do_call (c : call) : prog (resp c) :=
  Call c (fun r => match r with inl e => Raise e | inr x => Ret x end).

Definition lift {A} (r : result A) : prog A :=
  match r with
  | inl e => Raise e
  | inr a => Ret a
  end.

(** [try: p finally: q]; an exception raised by [q] replaces the outcome
    of [p]. *)
Fixpoint finally {A} (p : prog A) (q : prog unit) : prog A :=
  match p with
  | Ret a => bind q (fun _ => Ret a)
  | Raise e => bind q (fun _ => Raise e)
  | Call c k => Call c (fun r => finally (k r) q)
  end.

Notation "x <~ p ;; q" := (bind p (fun x => q))
  (at level 100, p at next level, right associativity, only parsing).
Notation "x <- r ;; q" := (rbind r (fun x => q))
  (at level 100, r at next level, right associativity, only parsing).

(** [with project.get_chain(chain_name) as chain: body] (line 104); the
    chain's exit handler does not swallow exceptions. *)
Definition with_chain {A} (chain_name : string) (body : prog A) : prog A :=
  _ <~ do_call (get_chain_enter chain_name);;
  finally body (do_call get_chain_exit).

(** [x if x else None] for an optional string: the value when it is
    truthy. *)
Definition given (o : option string) : option string :=
  if truthy o then o else None.

Section Main.

(** [getAuctionFactors] is imported from the [simulation] module (lines
    11-14); [main] is written against any function of its shape. *)
Variable getAuctionFactors : Z -> Z -> Z -> Z -> Z -> result (Z * Z).

(** Lines 87-88 and 94-100: the price parameters handed to the auction. *)
Definition price_parameters (kw : kwargs) : result (Z * Z) :=
  match given (price_points kw) with
  | Some text =>
      let price_points := split comma text in
      s0 <- index price_points 0;; n0 <- int s0;;
      s1 <- index price_points 1;; n1 <- int s1;;
      s2 <- index price_points 2;; n2 <- int s2;;
      s3 <- index price_points 3;; n3 <- int s3;;
      getAuctionFactors n0 n1 n2 n3 multiplier
  | None => inr (price_factor kw, price_constant kw)
  end.

(** Line 106: [owner = owner or web3.eth.accounts[0]]. *)
Definition resolve_owner (kw : kwargs) : prog string :=
  match given (owner kw) with
  | Some o => Ret o
  | None => accounts <~ do_call eth_accounts;; lift (index accounts 0)
  end.

(** Lines 118-121: [for i in range(0, 2)], appending to both lists. *)
Fixpoint create_wallets (n : nat) (prealloc_addresses priv_keys : list string)
  : prog (list string) :=
  match n with
  | O => Ret prealloc_addresses
  | S n' =>
      wallet <~ do_call createWallet;;
      let '(priv_key, address) := wallet in
      create_wallets n' (prealloc_addresses ++ [("0x" ++ address)%string])
                     (priv_keys ++ [priv_key])
  end.

(** Lines 109-124. *)
Definition resolve_prealloc_addresses (kw : kwargs) : prog (list string) :=
  match given (prealloc_addresses kw) with
  | Some text => Ret (split comma text)
  | None =>
      accounts <~ do_call eth_accounts;;
      if 2 <=? Z.of_nat (List.length accounts) then
        accounts <~ do_call eth_accounts;;
        Ret (slice accounts 1 3)
      else create_wallets 2 [] []
  end.

(** Lines 126-132. *)
Definition resolve_prealloc_amounts (kw : kwargs) : list pyval :=
  match given (prealloc_amounts kw) with
  | Some text => VStr <$> split comma text
  | None => [VInt (200000 * multiplier); VInt (800000 * multiplier)]
  end.

(** [receipt["contractAddress"]]. *)
Definition contract_address (receipt : gmap string pyval) : result pyval :=
  match receipt !! "contractAddress"%string with
  | Some a => inr a
  | None => inl KeyError
  end.

(** Lines 182-184: [for i in range(len(bidder_addresses), bidders)]. *)
Fixpoint new_accounts (n : nat) (bidder_addresses : list string)
  : prog (list string) :=
  match n with
  | O => Ret bidder_addresses
  | S n' =>
      address <~ do_call (personal_newAccount "0");;
      new_accounts n' (bidder_addresses ++ [address])
  end.

(** Lines 177-188. *)
Definition run_simulation (kw : kwargs) (owner : string)
    (token_address auction_address : pyval) : prog unit :=
  let bidders := bidders kw in
  accounts <~ do_call eth_accounts;;
  let bidder_addresses := slice accounts 3 (bidders + 3) in
  bidder_addresses <~
    new_accounts (Z.to_nat (bidders - Z.of_nat (List.length bidder_addresses)))
                 bidder_addresses;;
  do_call (auction_simulation token_address auction_address owner
             bidder_addresses (bids kw) (bid_interval kw) (bid_price kw)).

(** Lines 141-188, inside the chain context, once the parameters are
    known. *)
Definition deploy_contracts (kw : kwargs) (supply price_factor price_constant : Z)
    (owner : string) (prealloc_addresses : list string)
    (prealloc_amounts : list pyval) : prog unit :=
  _ <~ do_call (get_contract_factory "DutchAuction");;
  _ <~ do_call (get_contract_factory "ReserveToken");;
  txhash <~ do_call (Auction_deploy owner [VInt price_factor; VInt price_constant]);;
  receipt <~ do_call (check_succesful_tx txhash);;
  auction_address <~ lift (contract_address receipt);;
  txhash <~ do_call (Token_deploy owner
                       [auction_address; VInt supply;
                        VList (VStr <$> prealloc_addresses);
                        VList prealloc_amounts]);;
  receipt <~ do_call (check_succesful_tx txhash);;
  token_address <~ lift (contract_address receipt);;
  txhash <~ do_call (auction_setup owner auction_address token_address);;
  _ <~ do_call (check_succesful_tx txhash);;
  _ <~ do_call (token_totalSupply token_address);;
  _ <~ do_call (token_totalSupply token_address);;
  _ <~ do_call (auction_price auction_address);;
  _ <~ do_call (auction_price auction_address);;
  if simulation kw then run_simulation kw owner token_address auction_address
  else Ret tt.

(** Lines 81-188. *)
Definition main (kw : kwargs) : prog unit :=
  _ <~ do_call Project_new;;
  let supply := supply kw * multiplier in
  parameters <~ lift (price_parameters kw);;
  let '(price_factor, price_constant) := parameters in
  with_chain (chain kw) (
    owner <~ resolve_owner kw;;
    prealloc_addresses <~ resolve_prealloc_addresses kw;;
    let prealloc_amounts := resolve_prealloc_amounts kw in
    if truthy (Some owner) then
      deploy_contracts kw supply price_factor price_constant owner
                       prealloc_addresses prealloc_amounts
    else Raise AssertionError).

End Main.

(** *** Running a program against a chain *)

(** What the log keeps of a call's result. *)
Inductive outcome : Type :=
| Raised (e : exn)
| Done
| Accounts (l : list string)
| Wallet (priv_key address : string)
| TxHash (h : string)
| Receipt (r : gmap string pyval)
| Number (z : Z)
| Address (a : string).

Definition observe (c : call) (r : result (resp c)) : outcome :=
  match r with
  | inl e => Raised e
  | inr x =>
      match c return resp c -> outcome with
      | Project_new => fun _ => Done
      | get_chain_enter _ => fun _ => Done
      | get_chain_exit => fun _ => Done
      | eth_accounts => Accounts
      | createWallet => fun w => Wallet (fst w) (snd w)
      | get_contract_factory _ => fun _ => Done
      | Auction_deploy _ _ => TxHash
      | Token_deploy _ _ => TxHash
      | check_succesful_tx _ => Receipt
      | auction_setup _ _ _ => TxHash
      | token_totalSupply _ => Number
      | auction_price _ => Number
      | personal_newAccount _ => Address
      | auction_simulation _ _ _ _ _ _ _ => fun _ => Done
      end x
  end.

Definition entry : Type := call * outcome.

Record finished (A W : Type) : Type := Finished {
  log : list entry;
  returned : result A;
  world : W
}.

Arguments Finished {A W} log returned world.
Arguments log {A W} f.
Arguments returned {A W} f.
Arguments world {A W} f.

Section Run.

Context {W : Type}.

(** The environment: how the outside answers a call in a given state. *)
Variable answer : forall c : call, W -> result (resp c) * W.

Fixpoint run {A} (p : prog A) (w : W) : finished A W :=
  match p with
  | Ret a => Finished [] (inr a) w
  | Raise e => Finished [] (inl e) w
  | Call c k =>
      let (r, w1) := answer c w in
      let rest := run (k r) w1 in
      Finished ((c, observe c r) :: log rest) (returned rest) (world rest)
  end.

End Run.

(** A chain that never fails: it exposes a fixed account list, numbers
    its transactions and creates contracts at addresses derived from the
    transaction hash.  The state counts the transactions sent. *)
Definition tx_name (n : nat) : string :=
  ("0xtx" ++ String (ascii_of_nat (48 + n)) "")%string.

Definition quiet_chain (accounts : list string) (c : call) (sent : nat)
  : result (resp c) * nat :=
  match c return result (resp c) * nat with
  | Project_new => (inr tt, sent)
  | get_chain_enter _ => (inr tt, sent)
  | get_chain_exit => (inr tt, sent)
  | eth_accounts => (inr accounts, sent)
  | createWallet => (inr ("key"%string, "cafe"%string), sent)
  | get_contract_factory _ => (inr tt, sent)
  | Auction_deploy _ _ => (inr (tx_name sent), S sent)
  | Token_deploy _ _ => (inr (tx_name sent), S sent)
  | check_succesful_tx txhash =>
      (inr {[ "contractAddress"%string := VStr ("at:" ++ txhash)%string ]}, sent)
  | auction_setup _ _ _ => (inr (tx_name sent), S sent)
  | token_totalSupply _ => (inr 0, sent)
  | auction_price _ => (inr 0, sent)
  | personal_newAccount _ => (inr "0xnew"%string, sent)
  | auction_simulation _ _ _ _ _ _ _ => (inr tt, sent)
  end.

(** The same chain, except that the [n]-th confirmation (counting from
    zero) raises. *)
Definition failing_confirmation (n : nat) (accounts : list string) (c : call)
    (sent : nat) : result (resp c) * nat :=
  match c return result (resp c) * nat with
  | check_succesful_tx txhash =>
      if (S n =? sent)%nat then (inl (Other "ConfirmationTimeoutError"), sent)
      else quiet_chain accounts (check_succesful_tx txhash) sent
  | c' => quiet_chain accounts c' sent
  end.

(** Two command lines: price points that the solver accepts, with other
    price options next to them; and the default amounts typed in as
    whole tokens. *)
Definition with_price_points : kwargs := {|
  chain := "tester";
  owner := None;
  supply := 10000000;
  price_factor := 1;
  price_constant := 2;
  price_points := Some "100000000000000000,0,10000000000000000,540"%string;
  prealloc_addresses := None;
  prealloc_amounts := None;
  simulation := false;
  bidders := 10;
  bids := 10;
  bid_price := 50000000000000000;
  bid_interval := 5
|}.

Definition with_amounts : kwargs := {|
  chain := "tester";
  owner := None;
  supply := 10000000;
  price_factor := 6;
  price_constant := 66;
  price_points := None;
  prealloc_addresses := None;
  prealloc_amounts := Some "200000,800000"%string;
  simulation := false;
  bidders := 10;
  bids := 10;
  bid_price := 50000000000000000;
  bid_interval := 5
|}.

Definition with_empty_amounts : kwargs := {|
  chain := "tester";
  owner := None;
  supply := 10000000;
  price_factor := 6;
  price_constant := 66;
  price_points := None;
  prealloc_addresses := None;
  prealloc_amounts := Some ""%string;
  simulation := false;
  bidders := 10;
  bids := 10;
  bid_price := 50000000000000000;
  bid_interval := 5
|}.

Definition two_accounts : list string := ["0xowner"; "0xsecond"]%string.

(** What the token factory receives on [quiet_chain two_accounts] when
    no preallocation option is given. *)
Definition default_token_args : list pyval :=
  [VStr "at:0xtx0"; VInt (10000000 * multiplier);
   VList [VStr "0xsecond"];
   VList [VInt (200000 * multiplier); VInt (800000 * multiplier)]].

(** *** Reasoning about every run *)

(** [all_calls p Q]: whatever the chain answers, [p] only makes calls
    that satisfy [Q]. *)
Fixpoint all_calls {A} (p : prog A) (Q : call -> Prop) : Prop :=
  match p with
  | Ret _ => True
  | Raise _ => True
  | Call c k => Q c /\ forall r, all_calls (k r) Q
  end.

(** [all_logs p P]: whatever the chain answers, the log and the result
    of [p] satisfy [P]. *)
Fixpoint all_logs {A} (p : prog A) (P : list entry -> result A -> Prop) : Prop :=
  match p with
  | Ret a => P [] (inr a)
  | Raise e => P [] (inl e)
  | Call c k =>
      forall r, all_logs (k r) (fun l res => P ((c, observe c r) :: l) res)
  end.

(** *** What [main] deploys *)

(** The calls of the deployment block are fixed by its arguments. *)
Definition deploys_with (price_factor price_constant supply : Z)
    (amounts : list pyval) (c : call) : Prop :=
  match c with
  | Auction_deploy _ args => args = [VInt price_factor; VInt price_constant]
  | Token_deploy _ args =>
      exists auction_address addresses,
        args = [auction_address; VInt supply; VList (VStr <$> addresses);
                VList amounts]
  | _ => True
  end.

(** Calls that deploy nothing. *)
Definition deploys_nothing (c : call) : Prop :=
  match c with
  | Auction_deploy _ _ => False
  | Token_deploy _ _ => False
  | _ => True
  end.

(** A call of [main]: the auction is deployed with the price parameters
    resolved at lines 87-100, the token with the scaled supply and the
    amounts resolved at lines 126-132. *)
Definition main_deploys_with
    (solver : Z -> Z -> Z -> Z -> Z -> result (Z * Z)) (kw : kwargs)
    (c : call) : Prop :=
  deploys_nothing c
  \/ exists pf pc, price_parameters solver kw = inr (pf, pc)
       /\ deploys_with pf pc (supply kw * multiplier)
                       (resolve_prealloc_amounts kw) c.

(** *** Monitors for the order of the two deployments *)

(** How far the auction deployment has got. *)
Inductive phase : Type :=
| Unsubmitted
| Submitted (txhash : string)
| Confirmed.

(** The auction deployment is submitted when [Auction.deploy] returns a
    transaction hash and confirmed when [check_succesful_tx] returns the
    receipt of that hash; a token deployment is refused before that. *)
Definition advance (ph : phase) (e : entry) : option phase :=
  match e with
  | (Auction_deploy _ _, TxHash tx) =>
      match ph with
      | Unsubmitted => Some (Submitted tx)
      | _ => Some ph
      end
  | (check_succesful_tx tx, Receipt _) =>
      match ph with
      | Submitted tx' => if String.eqb tx tx' then Some Confirmed else Some ph
      | _ => Some ph
      end
  | (Token_deploy _ _, _) =>
      match ph with
      | Confirmed => Some ph
      | _ => None
      end
  | _ => Some ph
  end.

Fixpoint waits (ph : phase) (l : list entry) : Prop :=
  match l with
  | [] => True
  | e :: rest =>
      match advance ph e with
      | Some ph' => waits ph' rest
      | None => False
      end
  end.

(** Whether the token deployment has failed: [Pending] right after the
    token transaction was sent, [Closing] once sending it or confirming
    it has raised. *)
Inductive watch : Type :=
| Watching
| Pending
| Closing.

Definition notice (st : watch) (e : entry) : option watch :=
  match st, e with
  | Closing, (get_chain_exit, _) => Some Closing
  | Closing, _ => None
  | _, (Token_deploy _ _, Raised _) => Some Closing
  | _, (Token_deploy _ _, _) => Some Pending
  | Pending, (check_succesful_tx _, Raised _) => Some Closing
  | _, _ => Some Watching
  end.

Definition raised {A} (res : result A) : Prop :=
  match res with
  | inl _ => True
  | inr _ => False
  end.

(** After a failed token deployment nothing but leaving the chain
    context may follow, and the run must end with an exception. *)
Fixpoint aborts {A} (st : watch) (l : list entry) (res : result A) : Prop :=
  match l with
  | [] =>
      match st with
      | Closing => raised res
      | _ => True
      end
  | e :: rest =>
      match notice st e with
      | Some st' => aborts st' rest res
      | None => False
      end
  end.

Definition in_order {A} (l : list entry) (res : result A) : Prop :=
  waits Unsubmitted l /\ aborts Watching l res.

(** *** Monitors for the way a run ends *)

Definition is_raised (o : outcome) : bool :=
  match o with
  | Raised _ => true
  | _ => false
  end.

Section Stops.

Context {A : Type}.

(** [fatal previous e] tells whether the entry [e], coming right after
    [previous], must end the run. *)
Variable fatal : option entry -> entry -> bool.

(** Once a fatal entry has been seen, only leaving the chain context may
    follow and the run must end with an exception. *)
Fixpoint stops (previous : option entry) (closing : bool) (l : list entry)
    (res : result A) : Prop :=
  match l with
  | [] => if closing then raised res else True
  | e :: rest =>
      if closing then fst e = get_chain_exit /\ stops (Some e) true rest res
      else stops (Some e) (fatal previous e) rest res
  end.

End Stops.

(** A call that raises is fatal. *)
Definition raises (previous : option entry) (e : entry) : bool :=
  is_raised (snd e).

Definition is_deployment (c : call) : bool :=
  match c with
  | Auction_deploy _ _ => true
  | Token_deploy _ _ => true
  | _ => false
  end.

Definition has_address (receipt : gmap string pyval) : bool :=
  match contract_address receipt with
  | inr _ => true
  | inl _ => false
  end.

(** The receipt of a deployment is fatal when it has no
    ["contractAddress"] (lines 149 and 161). *)
Definition unaddressed (previous : option entry) (e : entry) : bool :=
  match previous, e with
  | Some (c, TxHash _), (check_succesful_tx _, Receipt receipt) =>
      is_deployment c && negb (has_address receipt)
  | _, _ => false
  end.

(** The entry before position [i]. *)
Definition before (previous : option entry) (l : list entry) (i : nat)
  : option entry :=
  match i with
  | O => previous
  | S i' => l !! i'
  end.

(** Only the last call of the log may have raised, and then the result
    is an exception. *)
Fixpoint straight {A} (l : list entry) (res : result A) : Prop :=
  match l with
  | [] => True
  | e :: rest =>
      match rest with
      | [] => is_raised (snd e) = true -> raised res
      | _ :: _ => is_raised (snd e) = false /\ straight rest res
      end
  end.

(** Programs that let every exception through. *)
Fixpoint plain {A} (p : prog A) : Prop :=
  match p with
  | Ret _ => True
  | Raise _ => True
  | Call c k => (forall e, k (inl e) = Raise e) /\ forall x, plain (k (inr x))
  end.

(** The result of [try: ... finally: leave()] from the result of the
    body and what leaving answered. *)
Definition after_exit {A} (r : result unit) (res : result A) : result A :=
  match r with
  | inl e => inl e
  | inr _ => res
  end.

(** The calls of the simulation block. *)
Definition simulation_call (c : call) : Prop :=
  match c with
  | eth_accounts => True
  | personal_newAccount _ => True
  | auction_simulation _ _ _ _ _ _ _ => True
  | _ => False
  end.

(** *** Further notions used to describe runs *)

(** The account a transaction or the simulation is run from. *)
Definition sender_of (c : call) : option string :=
  match c with
  | Auction_deploy sender _ => Some sender
  | Token_deploy sender _ => Some sender
  | auction_setup sender _ _ => Some sender
  | auction_simulation _ _ sender _ _ _ _ => Some sender
  | _ => None
  end.

(** Line 106 read off a log: [--owner] when it is given, otherwise the
    first account of the accounts query that follows entering the chain
    context (the third call of the run). *)
Definition resolved_owner (kw : kwargs) (l : list entry) : option string :=
  match given (owner kw) with
  | Some o => Some o
  | None =>
      match l !! 2%nat with
      | Some (eth_accounts, Accounts (first :: _)) => Some first
      | _ => None
      end
  end.

Definition sent_by_owner (kw : kwargs) (l : list entry) : Prop :=
  Forall (fun e => forall s, sender_of (fst e) = Some s ->
                     s <> EmptyString /\ resolved_owner kw l = Some s) l.

(** The addresses of the wallets created during a run, as line 121
    stores them. *)
Fixpoint created (l : list entry) : list string :=
  match l with
  | [] => []
  | (createWallet, Wallet _ address) :: rest =>
      ("0x" ++ address)%string :: created rest
  | _ :: rest => created rest
  end.

(** Where the preallocation addresses of a token deployment come from
    (lines 109-124). *)
Definition preallocated (kw : kwargs) (l : list entry) (c : call) : Prop :=
  match c with
  | Token_deploy _ args =>
      exists addresses,
        args !! 2%nat = Some (VList (VStr <$> addresses))
        /\ match given (prealloc_addresses kw) with
           | Some text => addresses = split comma text
           | None =>
               (created l = []
                /\ exists accounts,
                     In (eth_accounts, Accounts accounts) l
                     /\ addresses = slice accounts 1 3)
               \/ (addresses = created l /\ List.length addresses = 2%nat)
           end
  | _ => True
  end.

(** How often a kind of call occurs in a log. *)
Fixpoint occurrences (kind : call -> bool) (l : list entry) : nat :=
  match l with
  | [] => O
  | e :: rest => ((if kind (fst e) then 1 else 0) + occurrences kind rest)%nat
  end.

Definition is_auction_deploy (c : call) : bool :=
  match c with Auction_deploy _ _ => true | _ => false end.

Definition is_token_deploy (c : call) : bool :=
  match c with Token_deploy _ _ => true | _ => false end.

Definition is_setup (c : call) : bool :=
  match c with auction_setup _ _ _ => true | _ => false end.

Definition is_simulation (c : call) : bool :=
  match c with auction_simulation _ _ _ _ _ _ _ => true | _ => false end.

Definition is_new_account (c : call) : bool :=
  match c with personal_newAccount _ => true | _ => false end.

Definition is_exit (c : call) : bool :=
  match c with get_chain_exit => true | _ => false end.

Definition at_most_once (l : list entry) : Prop :=
  (occurrences is_auction_deploy l <= 1)%nat
  /\ (occurrences is_token_deploy l <= 1)%nat
  /\ (occurrences is_setup l <= 1)%nat
  /\ (occurrences is_simulation l <= 1)%nat.

(** [sep.join(l)] for a one-character separator. *)
Fixpoint join (sep : ascii) (l : list string) : string :=
  match l with
  | [] => EmptyString
  | x :: rest =>
      match rest with
      | [] => x
      | _ :: _ => (x ++ String sep (join sep rest))%string
      end
  end.

(** The number of commas of a text. *)
Fixpoint commas (s : string) : nat :=
  match s with
  | EmptyString => O
  | String c rest => ((if Ascii.eqb c comma then 1 else 0) + commas rest)%nat
  end.

(** The same options with other values for the four simulation
    options. *)
Definition set_simulation_options (n b p i : Z) (kw : kwargs) : kwargs := {|
  chain := chain kw;
  owner := owner kw;
  supply := supply kw;
  price_factor := price_factor kw;
  price_constant := price_constant kw;
  price_points := price_points kw;
  prealloc_addresses := prealloc_addresses kw;
  prealloc_amounts := prealloc_amounts kw;
  simulation := simulation kw;
  bidders := n;
  bids := b;
  bid_price := p;
  bid_interval := i
|}.

(** Whether the chain context was entered. *)
Definition is_entered (e : entry) : bool :=
  match e with
  | (get_chain_enter _, Done) => true
  | _ => false
  end.

Definition entered (l : list entry) : bool := existsb is_entered l.

(** Inside the chain context: [left] tells whether the previous call was
    leaving it; nothing may follow that call, and the log may not end
    before it. *)
Fixpoint closes (left : bool) (l : list entry) : Prop :=
  match l with
  | [] => left = true
  | e :: rest => left = false /\ closes (is_exit (fst e)) rest
  end.

(** Outside the chain context nothing leaves it; entering it opens the
    part that [closes] describes. *)
Fixpoint guarded (l : list entry) : Prop :=
  match l with
  | [] => True
  | e :: rest =>
      if is_entered e then closes false rest
      else is_exit (fst e) = false /\ guarded rest
  end.

(** Lines 145-170 done in full: the two deployments and the set-up, each
    followed by its confirmation, with the addresses of the receipts
    handed on. *)
Definition deployed_and_set_up (l : list entry) : Prop :=
  exists i sender price_factor price_constant tx1 receipt1 auction_address
         supply addresses amounts tx2 receipt2 token_address tx3 receipt3,
    l !! i
    = Some (Auction_deploy sender [VInt price_factor; VInt price_constant],
            TxHash tx1)
    /\ l !! (i + 1)%nat = Some (check_succesful_tx tx1, Receipt receipt1)
    /\ receipt1 !! "contractAddress"%string = Some auction_address
    /\ l !! (i + 2)%nat
       = Some (Token_deploy sender
                 [auction_address; VInt supply; VList addresses; VList amounts],
               TxHash tx2)
    /\ l !! (i + 3)%nat = Some (check_succesful_tx tx2, Receipt receipt2)
    /\ receipt2 !! "contractAddress"%string = Some token_address
    /\ l !! (i + 4)%nat
       = Some (auction_setup sender auction_address token_address, TxHash tx3)
    /\ l !! (i + 5)%nat = Some (check_succesful_tx tx3, Receipt receipt3).

Definition succeeds_in_full {A} (l : list entry) (res : result A) : Prop :=
  match res with
  | inr _ => deployed_and_set_up l
  | inl _ => True
  end.

(** The log of the simulation block (lines 177-188): the accounts query,
    the accounts created one by one, and the call of the simulation with
    the accounts from index 3 on followed by the new ones; a call that
    raises is the last one. *)
Definition new_account_entry (address : string) : entry :=
  (personal_newAccount "0", Address address).

Definition simulation_log (kw : kwargs) (sender : string)
    (token_address auction_address : pyval) (l : list entry)
    (res : result unit) : Prop :=
  (exists e, l = [(eth_accounts, Raised e)] /\ res = inl e)
  \/ exists accounts news,
       let reused := slice accounts 3 (bidders kw + 3) in
       let missing := Z.to_nat (bidders kw - Z.of_nat (List.length reused)) in
       (exists e,
           (List.length news < missing)%nat
           /\ l = (eth_accounts, Accounts accounts)
                  :: map new_account_entry news
                  ++ [(personal_newAccount "0", Raised e)]
           /\ res = inl e)
       \/ (exists r : result unit,
             List.length news = missing
             /\ l = (eth_accounts, Accounts accounts)
                    :: map new_account_entry news
                    ++ [(auction_simulation token_address auction_address
                           sender (reused ++ news) (bids kw)
                           (bid_interval kw) (bid_price kw),
                         observe (auction_simulation token_address
                                    auction_address sender (reused ++ news)
                                    (bids kw) (bid_interval kw) (bid_price kw))
                                 r)]
             /\ res = r).

(** What a simulation call of a run looks like when [--bidders] is not
    negative. *)
Definition simulated (kw : kwargs) (l : list entry) (c : call) : Prop :=
  match c with
  | auction_simulation _ _ _ bidder_addresses bids_number interval price =>
      Z.of_nat (List.length bidder_addresses) = bidders kw
      /\ bids_number = bids kw
      /\ interval = bid_interval kw
      /\ price = bid_price kw
      /\ exists accounts news,
           In (eth_accounts, Accounts accounts) l
           /\ bidder_addresses = slice accounts 3 (bidders kw + 3) ++ news
           /\ Forall (fun a => In (personal_newAccount "0", Address a) l) news
  | personal_newAccount password => password = "0"%string
  | _ => True
  end.

(** The first accounts query finds no account (line 106 without
    [--owner]). *)
Definition without_accounts {A} (kw : kwargs) (l : list entry)
    (res : result A) : Prop :=
  l !! 2%nat = Some (eth_accounts, Accounts []) ->
  exists r : result unit,
    l = [(Project_new, Done); (get_chain_enter (chain kw), Done);
         (eth_accounts, Accounts []);
         (get_chain_exit, observe get_chain_exit r)]
    /\ res = after_exit r (inl IndexError).

(** The properties of a whole log that the facts below establish for
    every run. *)
Definition addressed {A} (l : list entry) (res : result A) : Prop :=
  stops unaddressed None false l res.

Definition preallocates (kw : kwargs) (l : list entry) : Prop :=
  Forall (fun e => preallocated kw l (fst e)) l.

Definition simulates (kw : kwargs) (l : list entry) : Prop :=
  Forall (fun e => simulated kw l (fst e)) l.

Definition never_simulates (l : list entry) : Prop :=
  Forall (fun e => is_new_account (fst e) = false
                   /\ is_simulation (fst e) = false) l.

(** The auction and the token at the two addresses are deployed,
    confirmed and set up, all from [sender]. *)
Definition set_up_for (l : list entry) (sender : string)
    (auction_address token_address : pyval) : Prop :=
  exists i price_factor price_constant tx1 receipt1 supply addresses amounts
         tx2 receipt2 tx3 receipt3,
    l !! i
    = Some (Auction_deploy sender [VInt price_factor; VInt price_constant],
            TxHash tx1)
    /\ l !! (i + 1)%nat = Some (check_succesful_tx tx1, Receipt receipt1)
    /\ receipt1 !! "contractAddress"%string = Some auction_address
    /\ l !! (i + 2)%nat
       = Some (Token_deploy sender
                 [auction_address; VInt supply; VList addresses; VList amounts],
               TxHash tx2)
    /\ l !! (i + 3)%nat = Some (check_succesful_tx tx2, Receipt receipt2)
    /\ receipt2 !! "contractAddress"%string = Some token_address
    /\ l !! (i + 4)%nat
       = Some (auction_setup sender auction_address token_address, TxHash tx3)
    /\ l !! (i + 5)%nat = Some (check_succesful_tx tx3, Receipt receipt3).

Definition ready_for (l : list entry) (c : call) : Prop :=
  match c with
  | auction_simulation token_address auction_address sender _ _ _ _ =>
      set_up_for l sender auction_address token_address
  | _ => True
  end.

Definition simulates_when_ready (l : list entry) : Prop :=
  Forall (fun e => ready_for l (fst e)) l.

(** A chain like [quiet_chain] whose receipts carry no
    ["contractAddress"]. *)
Definition bare_receipts (accounts : list string) (c : call) (sent : nat)
  : result (resp c) * nat :=
  match c return result (resp c) * nat with
  | check_succesful_tx _ => (inr ∅, sent)
  | c' => quiet_chain accounts c' sent
  end.

(** A rehearsal run from a given owner with five bidders, on a chain
    with five accounts. *)
Definition rehearsal : kwargs := {|
  chain := "tester";
  owner := Some "0xboss"%string;
  supply := 10000000;
  price_factor := 6;
  price_constant := 66;
  price_points := None;
  prealloc_addresses := Some "0xa,0xb,0xc"%string;
  prealloc_amounts := None;
  simulation := true;
  bidders := 5;
  bids := 10;
  bid_price := 50000000000000000;
  bid_interval := 5
|}.

Definition five_accounts : list string :=
  ["0xa0"; "0xa1"; "0xa2"; "0xa3"; "0xa4"]%string.

Definition short_price_points : kwargs := {|
  chain := "tester";
  owner := None;
  supply := 10000000;
  price_factor := 6;
  price_constant := 66;
  price_points := Some "100000000000000000,0,10000000000000000"%string;
  prealloc_addresses := None;
  prealloc_amounts := None;
  simulation := false;
  bidders := 10;
  bids := 10;
  bid_price := 50000000000000000;
  bid_interval := 5
|}.

(** *** From the contract factories to the two deployments *)

(** How far a run has come towards the deployments: the contract
    factories are loaded and the auction is deployed next (line 146);
    the auction's transaction is sent (line 148); its receipt holds an
    address and the token is deployed next (line 153). *)
Inductive stage : Type :=
| Idle
| AuctionNext
| AuctionSent
| TokenNext (auction_address : pyval).

Definition next_stage (st : stage) (e : entry) : stage :=
  match e with
  | (get_contract_factory name, Done) =>
      if String.eqb name "ReserveToken" then AuctionNext else Idle
  | (Auction_deploy _ _, TxHash _) => AuctionSent
  | (check_succesful_tx _, Receipt receipt) =>
      match st with
      | AuctionSent =>
          match contract_address receipt with
          | inr a => TokenNext a
          | inl _ => Idle
          end
      | _ => Idle
      end
  | _ => Idle
  end.

(** The call that is due at a stage, with the arguments it must carry. *)
Definition due (price_factor price_constant supply : Z) (amounts : list pyval)
    (st : stage) (e : entry) : Prop :=
  match st with
  | AuctionNext =>
      exists sender,
        fst e = Auction_deploy sender [VInt price_factor; VInt price_constant]
  | TokenNext auction_address =>
      exists sender addresses,
        fst e = Token_deploy sender
                  [auction_address; VInt supply; VList addresses;
                   VList amounts]
  | _ => True
  end.

(** A log in which each deployment that is due is the very next call. *)
Fixpoint proceeds (price_factor price_constant supply : Z)
    (amounts : list pyval) (st : stage) (l : list entry) : Prop :=
  match l with
  | [] => match st with
          | AuctionNext | TokenNext _ => False
          | _ => True
          end
  | e :: rest =>
      due price_factor price_constant supply amounts st e
      /\ proceeds price_factor price_constant supply amounts
                  (next_stage st e) rest
  end.

(** [main] proceeds with the price parameters of lines 96-100, the
    supply of line 86 and the amounts of lines 126-132. *)
Definition main_proceeds {A}
    (getAuctionFactors : Z -> Z -> Z -> Z -> Z -> result (Z * Z))
    (kw : kwargs) (l : list entry) (res : result A) : Prop :=
  forall price_factor price_constant,
    price_parameters getAuctionFactors kw = inr (price_factor, price_constant) ->
    proceeds price_factor price_constant (supply kw * multiplier)
             (resolve_prealloc_amounts kw) Idle l.

(** A run that deploys the auction with the given price parameters:
    once the contract factories are loaded the deployment is the next
    call, and a run that returns has sent it. *)
Definition deploys_auction (price_factor price_constant : Z)
    (l : list entry) (res : result unit) : Prop :=
  (forall i,
      l !! i = Some (get_contract_factory "ReserveToken", Done) ->
      exists sender o,
        l !! S i
        = Some (Auction_deploy sender [VInt price_factor; VInt price_constant],
                o))
  /\ (res = inr tt ->
      exists sender tx,
        In (Auction_deploy sender [VInt price_factor; VInt price_constant],
            TxHash tx) l).

(** A run that deploys the token with the given supply and amounts: once
    the auction's receipt holds an address the deployment is the next
    call, for that address, and a run that returns has sent it. *)
Definition deploys_token (supply : Z) (amounts : list pyval)
    (l : list entry) (res : result unit) : Prop :=
  (forall i sender args tx tx' receipt auction_address,
      l !! i = Some (Auction_deploy sender args, TxHash tx) ->
      l !! S i = Some (check_succesful_tx tx', Receipt receipt) ->
      receipt !! "contractAddress"%string = Some auction_address ->
      exists sender' addresses o,
        l !! S (S i)
        = Some (Token_deploy sender'
                  [auction_address; VInt supply; VList addresses;
                   VList amounts],
                o))
  /\ (res = inr tt ->
      exists sender auction_address addresses tx,
        In (Token_deploy sender
              [auction_address; VInt supply; VList addresses; VList amounts],
            TxHash tx) l).

End Deploy.

(** The solver of the design document, seen from [main]: its errors
    become exceptions named after them. *)
Definition error_name (e : Solver.solve_error) : string :=
  match e with
  | Solver.InvalidSampleError => "InvalidSampleError"
  | Solver.DegenerateSampleError => "DegenerateSampleError"
  | Solver.UnsolvablePriceModel => "UnsolvablePriceModel"
  end.

Definition imported_solver (p1 t1 p2 t2 scale : Z) : Py.result (Z * Z) :=
  match Solver.getAuctionFactors p1 t1 p2 t2 scale with
  | inl e => inl (Py.Other (error_name e))
  | inr parameters => inr parameters
  end.

(* ------------------------------------------------------------------ *)
(** ** The bid simulation scheduler *)

Module Scheduler.

Definition BidderIdentity : Type := string.
Definition transactionHandle : Type := string.

Record Bid : Type := {
  bidder : BidderIdentity;
  observedPrice : Z;
  sequenceIndex : nat
}.

Inductive AuctionRunState : Type :=
| NotStarted
| Running
| Completed
| Aborted.

(** The simulate request, with the bidder identities it is issued for. *)
Record request : Type := {
  bidders : list BidderIdentity;
  bidCount : nat;
  bidIntervalSeconds : Z;
  startingBidPrice : Z
}.

Definition bidderCount (r : request) : nat := List.length (bidders r).

(** How waiting for a receipt ends. *)
Inductive confirmation : Type :=
| Mined
| Reverted
| TimedOut.

(** What the scheduler does, in the order it does it. *)
Inductive event : Type :=
| PriceRead (index : nat) (price : Z)
| Submitted (index : nat) (b : BidderIdentity) (price : Z) (tx : transactionHandle)
| Rejected (index : nat) (b : BidderIdentity) (price : Z)
| Confirmed (index : nat) (tx : transactionHandle)
| Unconfirmed (index : nat) (tx : transactionHandle) (why : confirmation)
| NoBidder (index : nat).

Record outcome (W : Type) : Type := {
  trace : list event;
  recorded : list Bid;
  final : AuctionRunState;
  world : W
}.

Arguments trace {W} o.
Arguments recorded {W} o.
Arguments final {W} o.
Arguments world {W} o.

(** The chain gateway of section 6 as the scheduler uses it: two
    read-only queries, the bid transaction, the blocking wait and the
    delay between two iterations. *)
Record gateway (W : Type) : Type := {
  auction_ended : W -> bool;
  current_price : W -> Z;
  submit_bid : BidderIdentity -> Z -> W -> option transactionHandle * W;
  await_receipt : transactionHandle -> W -> confirmation * W;
  pause : Z -> W -> W
}.

Arguments auction_ended {W} g w.
Arguments current_price {W} g w.
Arguments submit_bid {W} g b price w.
Arguments await_receipt {W} g tx w.
Arguments pause {W} g seconds w.

(** Round-robin selection: bid [index] goes to bidder
    [index mod bidderCount]. *)
Definition next_bidder (r : request) (index : nat) : option BidderIdentity :=
  nth_error (bidders r) (index mod bidderCount r).

Section Simulate.

Context {W : Type}.
Variable g : gateway W.
Variable r : request.

Definition stop (events : list event) (s : AuctionRunState) (w : W) : outcome W :=
  {| trace := events; recorded := []; final := s; world := w |}.

(** Modelled from the spec: [auction_simulation] lives in the
    [simulation] module, which is not part of the script; section 4.3
    gives the loop run while [Running]: at most [bidCount] iterations, or
    until the auction reports its terminal condition; each iteration
    reads the price, selects the next bidder, submits the bid, waits for
    its confirmation and records the bid; a rejected submission or a
    confirmation that fails or times out ends the run in [Aborted].  A
    request without any bidder cannot select one and is taken to abort. *)
Fixpoint iterate (remaining index : nat) (w : W) : outcome W :=
  match remaining with
  | O => stop [] Completed w
  | S remaining' =>
      if auction_ended g w then stop [] Completed w
      else
        let price := current_price g w in
        match next_bidder r index with
        | None => stop [PriceRead index price; NoBidder index] Aborted w
        | Some b =>
            match submit_bid g b price w with
            | (None, w1) =>
                stop [PriceRead index price; Rejected index b price] Aborted w1
            | (Some tx, w1) =>
                match await_receipt g tx w1 with
                | (Mined, w2) =>
                    let rest :=
                      iterate remaining' (S index)
                              (pause g (bidIntervalSeconds r) w2) in
                    {| trace := PriceRead index price
                                :: Submitted index b price tx
                                :: Confirmed index tx :: trace rest;
                       recorded := {| bidder := b; observedPrice := price;
                                      sequenceIndex := index |}
                                   :: recorded rest;
                       final := final rest;
                       world := world rest |}
                | (why, w2) =>
                    stop [PriceRead index price; Submitted index b price tx;
                          Unconfirmed index tx why] Aborted w2
                end
            end
        end
  end.

(** The state machine: a simulate request moves a scheduler that has not
    started to [Running], where the loop takes over; in any other state
    the request is ignored. *)
Definition simulate (s : AuctionRunState) (w : W) : outcome W :=
  match s with
  | NotStarted => iterate (bidCount r) 0 w
  | _ => stop [] s w
  end.

End Simulate.

(** Transactions not yet settled after a sequence of events. *)
Fixpoint in_flight (events : list event) : Z :=
  match events with
  | [] => 0
  | Submitted _ _ _ _ :: rest => in_flight rest + 1
  | Confirmed _ _ :: rest => in_flight rest - 1
  | Unconfirmed _ _ _ :: rest => in_flight rest - 1
  | _ :: rest => in_flight rest
  end.

(** The bid transactions sent, and those confirmed, in trace order. *)
Fixpoint submissions (events : list event) : list (nat * transactionHandle) :=
  match events with
  | [] => []
  | Submitted index _ _ tx :: rest => (index, tx) :: submissions rest
  | _ :: rest => submissions rest
  end.

Fixpoint confirmations (events : list event) : list (nat * transactionHandle) :=
  match events with
  | [] => []
  | Confirmed index tx :: rest => (index, tx) :: confirmations rest
  | _ :: rest => confirmations rest
  end.

(** The bid with sequence index [index] was rejected, or its
    confirmation failed or timed out. *)
Definition fails (index : nat) (e : event) : Prop :=
  match e with
  | Rejected j _ _ => j = index
  | Unconfirmed j _ why => j = index /\ why <> Mined
  | _ => False
  end.

(** The shape of every trace that starts at bid [index]: complete rounds,
    then possibly one round cut short. *)
Inductive paced : nat -> list event -> Prop :=
| paced_end index : paced index []
| paced_no_bidder index price :
    paced index [PriceRead index price; NoBidder index]
| paced_rejected index price b :
    paced index [PriceRead index price; Rejected index b price]
| paced_unconfirmed index price b tx why :
    why <> Mined ->
    paced index [PriceRead index price; Submitted index b price tx;
                 Unconfirmed index tx why]
| paced_round index price b tx rest :
    paced (S index) rest ->
    paced index (PriceRead index price :: Submitted index b price tx
                 :: Confirmed index tx :: rest).

(** A gateway over a clock: the price decays with the time elapsed, every
    bid is accepted, and the wait for the [n]-th submission (counting
    from one) times out. *)
Record clock : Type := { elapsed : Z; sent_bids : nat }.

Definition timing_out_at (n : nat) : gateway clock := {|
  auction_ended := fun _ => false;
  current_price := fun w => Solver.price (elapsed w) 6 60;
  submit_bid := fun _ _ w =>
    (Some "0xbid"%string,
     {| elapsed := elapsed w; sent_bids := S (sent_bids w) |});
  await_receipt := fun _ w =>
    (if (sent_bids w =? n)%nat then TimedOut else Mined, w);
  pause := fun seconds w =>
    {| elapsed := elapsed w + seconds; sent_bids := sent_bids w |}
|}.

Definition auction_start : clock := {| elapsed := 0; sent_bids := 0 |}.

Definition three_bidders : request := {|
  bidders := ["alice"; "bob"; "carol"]%string;
  bidCount := 10;
  bidIntervalSeconds := 0;
  startingBidPrice := 50000000000000000
|}.

End Scheduler.

(* ================================================================== *)
(** * Properties *)

(** ** The solver and the price function *)

Module SolverFacts.
Import Solver.

Lemma multiplier_pos : 0 < multiplier.
Proof. reflexivity. Qed.

Lemma reproduces_spec scale elapsed factor constant target :
  reproduces scale elapsed factor constant target = true ->
  constant + elapsed <> 0 /\ factor * scale / (constant + elapsed) = target.
Proof.
  unfold reproduces, price_at. intros H.
  apply andb_prop in H as [Hnz Heq].
  apply negb_true_iff in Hnz. split; lia.
Qed.

(** C1. For two price points with non-negative fields and different
    prices, the solver either returns a pair [(factor, constant)], the
    one of the closed form, for which [factor * scale / (constant + t)]
    gives back both prices exactly, or reports [UnsolvablePriceModel];
    it never returns a pair that fails to reproduce the samples. *)
Theorem solver_reproduces_or_reports (p1 t1 p2 t2 scale : Z) :
  0 <= p1 -> 0 <= t1 -> 0 <= p2 -> 0 <= t2 -> p1 <> p2 ->
  (exists factor constant,
      getAuctionFactors p1 t1 p2 t2 scale = inr (factor, constant)
      /\ constant = (p2 * t2 - p1 * t1) / (p1 - p2)
      /\ factor = p1 * (constant + t1) / scale
      /\ constant + t1 <> 0 /\ constant + t2 <> 0
      /\ factor * scale / (constant + t1) = p1
      /\ factor * scale / (constant + t2) = p2)
  \/ getAuctionFactors p1 t1 p2 t2 scale = inl UnsolvablePriceModel.
Proof.
  intros Hp1 Ht1 Hp2 Ht2 Hne. unfold getAuctionFactors.
  replace ((p1 <? 0) || (t1 <? 0) || (p2 <? 0) || (t2 <? 0)) with false
    by (symmetry; repeat (apply orb_false_intro); lia).
  replace (p1 =? p2) with false by (symmetry; lia).
  set (constant := (p2 * t2 - p1 * t1) / (p1 - p2)).
  set (factor := p1 * (constant + t1) / scale).
  destruct (reproduces scale t1 factor constant p1) eqn:H1;
    [ destruct (reproduces scale t2 factor constant p2) eqn:H2 | ];
    simpl; [ left | right; reflexivity | right; reflexivity ].
  apply reproduces_spec in H1 as [? ?], H2 as [? ?].
  exists factor, constant. repeat split; auto.
Qed.

Lemma solver_reproduces_or_reports_witness :
  (exists factor constant,
      getAuctionFactors 100000000000000000 0 10000000000000000 540 multiplier
      = inr (factor, constant)
      /\ constant
         = (10000000000000000 * 540 - 100000000000000000 * 0)
           / (100000000000000000 - 10000000000000000)
      /\ factor = 100000000000000000 * (constant + 0) / multiplier
      /\ constant + 0 <> 0 /\ constant + 540 <> 0
      /\ factor * multiplier / (constant + 0) = 100000000000000000
      /\ factor * multiplier / (constant + 540) = 10000000000000000)
  \/ getAuctionFactors 100000000000000000 0 10000000000000000 540 multiplier
     = inl UnsolvablePriceModel.
Proof. apply solver_reproduces_or_reports; lia. Defined.

(** Both outcomes occur: with the second sample at 540 seconds the
    solver answers (6, 60); with the document's own example, at 600
    seconds, the closed form gives (6, 66), which does not give back the
    first price, and the solver reports it. *)
Example solver_answers :
  getAuctionFactors 100000000000000000 0 10000000000000000 540 multiplier
  = inr (6, 60).
Proof. reflexivity. Qed.

Example solver_reports :
  getAuctionFactors 100000000000000000 0 10000000000000000 600 multiplier
  = inl UnsolvablePriceModel.
Proof. reflexivity. Qed.

(** C2. For positive [factor] and [constant] the price does not increase
    with the elapsed time. *)
Theorem price_non_increasing (factor constant e1 e2 : Z) :
  0 < factor -> 0 < constant -> 0 <= e1 -> e1 <= e2 ->
  price e2 factor constant <= price e1 factor constant.
Proof.
  intros Hf Hc He1 He12. unfold price, price_at.
  pose proof multiplier_pos.
  apply Z.div_le_compat_l; nia.
Qed.

Lemma price_non_increasing_witness : price 600 6 66 <= price 0 6 66.
Proof. apply price_non_increasing; lia. Defined.

(** C3. Two valid price points with the same price make the solver fail
    with [DegenerateSampleError], whatever the two elapsed times are; a
    negative price or a negative elapsed time makes it fail with
    [InvalidSampleError]. *)
Theorem solver_rejects_bad_samples :
  (forall p t1 t2 scale, 0 <= p -> 0 <= t1 -> 0 <= t2 ->
     getAuctionFactors p t1 p t2 scale = inl DegenerateSampleError)
  /\ (forall p1 t1 p2 t2 scale, p1 < 0 \/ t1 < 0 \/ p2 < 0 \/ t2 < 0 ->
        getAuctionFactors p1 t1 p2 t2 scale = inl InvalidSampleError).
Proof.
  split.
  - intros p t1 t2 scale Hp Ht1 Ht2. unfold getAuctionFactors.
    replace ((p <? 0) || (t1 <? 0) || (p <? 0) || (t2 <? 0)) with false
      by (symmetry; repeat (apply orb_false_intro); lia).
    now rewrite Z.eqb_refl.
  - intros p1 t1 p2 t2 scale H. unfold getAuctionFactors.
    replace ((p1 <? 0) || (t1 <? 0) || (p2 <? 0) || (t2 <? 0)) with true;
      [ reflexivity | ].
    symmetry. rewrite !orb_true_iff. lia.
Qed.

Lemma solver_rejects_bad_samples_witness :
  getAuctionFactors 5 0 5 600 multiplier = inl DegenerateSampleError
  /\ getAuctionFactors 5 7 5 7 multiplier = inl DegenerateSampleError
  /\ getAuctionFactors (-1) 0 5 600 multiplier = inl InvalidSampleError
  /\ getAuctionFactors 9 0 5 (-600) multiplier = inl InvalidSampleError.
Proof.
  destruct solver_rejects_bad_samples as [Hsame Hneg].
  split; [ apply Hsame; lia | ].
  split; [ apply Hsame; lia | ].
  split; apply Hneg; lia.
Defined.

End SolverFacts.

(** ** The deployment script *)

Module DeployFacts.
Import Py Deploy.

#[local] Arguments resolve_owner : simpl never.
#[local] Arguments resolve_prealloc_addresses : simpl never.
#[local] Arguments resolve_prealloc_amounts : simpl never.
#[local] Arguments price_parameters : simpl never.
#[local] Arguments multiplier : simpl never.

Section Runs.

Context {W : Type}.
Variable answer : forall c : call, W -> result (resp c) * W.

Lemma run_all_calls {A} (p : prog A) (Q : call -> Prop) :
  all_calls p Q ->
  forall w c o, In (c, o) (log (run answer p w)) -> Q c.
Proof.
  induction p as [a | e | c k IH]; simpl; intros HQ w c' o Hin.
  - destruct Hin.
  - destruct Hin.
  - destruct HQ as [Hc Hk].
    destruct (answer c w) as [r w1]. simpl in Hin.
    destruct Hin as [Heq | Hin].
    + injection Heq as <- _. exact Hc.
    + eapply IH; eauto.
Qed.

Lemma run_all_logs {A} (p : prog A) :
  forall (P : list entry -> result A -> Prop) w,
    all_logs p P ->
    P (log (run answer p w)) (returned (run answer p w)).
Proof.
  induction p as [a | e | c k IH]; simpl; intros P w HP; auto.
  destruct (answer c w) as [r w1]. simpl.
  apply (IH r (fun l res => P ((c, observe c r) :: l) res)), HP.
Qed.

End Runs.

Lemma all_calls_bind {A B} (p : prog A) (f : A -> prog B) (Q : call -> Prop) :
  all_calls p Q -> (forall a, all_calls (f a) Q) -> all_calls (bind p f) Q.
Proof.
  intros Hp Hf. induction p as [a | e | c k IH]; simpl in *; auto.
  destruct Hp as [Hc Hk]. split; auto.
Qed.

Lemma all_calls_finally {A} (p : prog A) (q : prog unit) (Q : call -> Prop) :
  all_calls p Q -> all_calls q Q -> all_calls (finally p q) Q.
Proof.
  intros Hp Hq. induction p as [a | e | c k IH]; simpl in *.
  - apply all_calls_bind; simpl; auto.
  - apply all_calls_bind; simpl; auto.
  - destruct Hp as [Hc Hk]. split; auto.
Qed.

Lemma all_calls_new_accounts n l (Q : call -> Prop) :
  Q (personal_newAccount "0") -> all_calls (new_accounts n l) Q.
Proof.
  intros HQ. revert l. induction n as [| n IH]; intros l; simpl; auto.
  split; [ exact HQ | ]. intros [e | a]; simpl; auto.
Qed.

Ltac answered :=
  repeat first
    [ exact I
    | reflexivity
    | match goal with
      | |- _ /\ _ => split
      | |- forall r : result _, _ => intros [? | ?]; simpl
      | |- context [lift ?r] => destruct r eqn:?; simpl
      | |- context [if ?b then _ else _] => destruct b eqn:?; simpl
      | |- exists _, _ => eexists
      end ].

Lemma run_simulation_calls kw owner token_address auction_address
    (Q : call -> Prop) :
  (forall c, deploys_nothing c -> Q c) ->
  all_calls (run_simulation kw owner token_address auction_address) Q.
Proof.
  intros HQ. unfold run_simulation. cbn.
  split; [ now apply HQ | ]. intros [e | accounts]; cbn; [ exact I | ].
  apply all_calls_bind.
  - apply all_calls_new_accounts. now apply HQ.
  - intros l. simpl. split; [ now apply HQ | ]. intros [? | ?]; exact I.
Qed.

#[local] Opaque run_simulation.

Lemma deploy_contracts_calls kw supply pf pc owner addresses amounts :
  all_calls (deploy_contracts kw supply pf pc owner addresses amounts)
            (deploys_with pf pc supply amounts).
Proof.
  unfold deploy_contracts. simpl.
  answered.
  apply run_simulation_calls. now intros [].
Qed.

#[local] Opaque deploy_contracts.

Lemma resolve_owner_calls kw (Q : call -> Prop) :
  Q eth_accounts -> all_calls (resolve_owner kw) Q.
Proof.
  intros HQ. unfold resolve_owner.
  destruct (given (owner kw)); simpl; answered. exact HQ.
Qed.


Lemma create_wallets_calls n addresses keys (Q : call -> Prop) :
  Q createWallet -> all_calls (create_wallets n addresses keys) Q.
Proof.
  intros HQ. revert addresses keys.
  induction n as [| n IH]; intros addresses keys; simpl; auto.
  split; [ exact HQ | ]. intros [e | [key address]]; simpl; auto.
Qed.

Lemma resolve_prealloc_addresses_calls kw (Q : call -> Prop) :
  Q eth_accounts -> Q createWallet ->
  all_calls (resolve_prealloc_addresses kw) Q.
Proof.
  intros Ha Hw. unfold resolve_prealloc_addresses.
  destruct (given (prealloc_addresses kw)); simpl; [ exact I | ].
  split; [ exact Ha | ]. intros [e | accounts]; simpl; [ exact I | ].
  destruct (2 <=? Z.of_nat (length accounts)).
  - simpl. split; [ exact Ha | ]. now intros [? | ?].
  - now apply (create_wallets_calls 2 [] []).
Qed.

Lemma all_calls_impl {A} (p : prog A) (Q Q' : call -> Prop) :
  (forall c, Q c -> Q' c) -> all_calls p Q -> all_calls p Q'.
Proof.
  intros HQ. induction p as [a | e | c k IH]; simpl; auto.
  intros [Hc Hk]. split; auto.
Qed.

(** Every call of [main] is of that kind. *)
Lemma main_calls solver kw :
  all_calls (main solver kw) (main_deploys_with solver kw).
Proof.
  unfold main. simpl. split; [ now left | ].
  intros [e | []]; simpl; [ exact I | ].
  destruct (price_parameters solver kw) as [e | [pf pc]] eqn:Hparams; simpl;
    [ exact I | ].
  split; [ now left | ].
  intros [e | []]; simpl; [ exact I | ].
  apply all_calls_finally; [ | simpl; split; [ now left | now intros [] ] ].
  apply all_calls_bind; [ apply resolve_owner_calls; now left | ].
  intros owner.
  apply all_calls_bind;
    [ apply resolve_prealloc_addresses_calls; now left | ].
  intros addresses.
  destruct owner as [| o wner]; simpl; [ exact I | ].
  eapply all_calls_impl; [ | apply deploy_contracts_calls ].
  intros c Hc. right. exists pf, pc. now rewrite Hparams.
Qed.

Lemma main_auction_args {W} (answer : forall c : call, W -> result (resp c) * W)
    solver kw w sender args o :
  In (Auction_deploy sender args, o) (log (run answer (main solver kw) w)) ->
  exists pf pc, price_parameters solver kw = inr (pf, pc)
                /\ args = [VInt pf; VInt pc].
Proof.
  intros Hin.
  destruct (run_all_calls answer _ _ (main_calls solver kw) _ _ _ Hin)
    as [[] | (pf & pc & Hparams & Hargs)].
  exists pf, pc. auto.
Qed.

Lemma main_token_args {W} (answer : forall c : call, W -> result (resp c) * W)
    solver kw w sender args o :
  In (Token_deploy sender args, o) (log (run answer (main solver kw) w)) ->
  exists auction_address addresses,
    args = [auction_address; VInt (supply kw * multiplier);
            VList (VStr <$> addresses);
            VList (resolve_prealloc_amounts kw)].
Proof.
  intros Hin.
  destruct (run_all_calls answer _ _ (main_calls solver kw) _ _ _ Hin)
    as [[] | (pf & pc & Hparams & Hargs)].
  exact Hargs.
Qed.

Lemma given_nonempty text : text <> EmptyString -> given (Some text) = Some text.
Proof. destruct text; [ congruence | reflexivity ]. Qed.

Lemma split_four_nonempty text s0 s1 s2 s3 :
  split comma text = [s0; s1; s2; s3] -> text <> EmptyString.
Proof. intros H ->. discriminate H. Qed.

Lemma price_parameters_from_points solver kw text s0 s1 s2 s3 n0 n1 n2 n3 :
  price_points kw = Some text ->
  split comma text = [s0; s1; s2; s3] ->
  int s0 = inr n0 -> int s1 = inr n1 -> int s2 = inr n2 -> int s3 = inr n3 ->
  price_parameters solver kw = solver n0 n1 n2 n3 multiplier.
Proof.
  intros Hpp Hsplit H0 H1 H2 H3. unfold price_parameters.
  rewrite Hpp, (given_nonempty text) by (eapply split_four_nonempty; eauto).
  rewrite Hsplit. simpl. rewrite H0. simpl. rewrite H1. simpl.
  rewrite H2. simpl. now rewrite H3.
Qed.

#[local] Transparent deploy_contracts run_simulation.

Lemma main_ignores_price_options solver kw text pf pc :
  price_points kw = Some text -> text <> EmptyString ->
  main solver (set_price_options pf pc kw) = main solver kw.
Proof.
  intros Hpp Hne. destruct kw. simpl in Hpp. subst.
  destruct text as [| c text]; [ congruence | ]. reflexivity.
Qed.

#[local] Opaque deploy_contracts run_simulation.

(** Finding an entry in the log of a concrete run. *)
Ltac logged := vm_compute; repeat first [ left; reflexivity | right ].

(** C9 as stated fails: an option supplied with the empty text is
    treated as absent, and the token receives the default integers
    instead of the pieces of the text. *)
Lemma empty_amounts_are_replaced :
  prealloc_amounts with_empty_amounts = Some EmptyString
  /\ In (Token_deploy "0xowner" default_token_args, TxHash "0xtx1")
        (log (run (quiet_chain two_accounts)
                  (main imported_solver with_empty_amounts) 0%nat))
  /\ default_token_args !! 3%nat
     <> Some (VList (VStr <$> split comma EmptyString)).
Proof.
  split; [ reflexivity | split; [ logged | discriminate ] ].
Qed.

(** C10. With no [--prealloc-addresses] and a chain that exposes exactly
    two accounts, [main] reaches the token deployment with one
    preallocation address ([accounts[1:3]]) and the two default amounts:
    the two lists need not have the same length. *)
Theorem prealloc_lists_may_differ_in_length :
  prealloc_addresses defaults = None
  /\ List.length two_accounts = 2%nat
  /\ (forall sent, quiet_chain two_accounts eth_accounts sent
                   = (inr two_accounts, sent))
  /\ exists sender auction_address supply addresses amounts o,
       In (Token_deploy sender
             [auction_address; supply; VList addresses; VList amounts], o)
          (log (run (quiet_chain two_accounts)
                    (main imported_solver defaults) 0%nat))
       /\ addresses = VStr <$> slice two_accounts 1 3
       /\ List.length addresses = 1%nat
       /\ List.length amounts = 2%nat.
Proof.
  split; [ reflexivity | split; [ reflexivity | split; [ reflexivity | ] ] ].
  exists "0xowner"%string, (VStr "at:0xtx0"), (VInt (10000000 * multiplier)),
    [VStr "0xsecond"],
    [VInt (200000 * multiplier); VInt (800000 * multiplier)],
    (TxHash "0xtx1").
  split; [ logged | repeat split ].
Qed.

(** *** Order of the two deployments *)

Lemma all_logs_impl {A} (p : prog A) :
  forall P P' : list entry -> result A -> Prop,
    (forall l res, P l res -> P' l res) -> all_logs p P -> all_logs p P'.
Proof.
  induction p as [a | e | c k IH]; simpl; intros P P' HP; auto.
  intros H r. eapply IH; [ | apply H ]. simpl. auto.
Qed.

Lemma all_calls_logs {A} (p : prog A) (Q : call -> Prop) :
  all_calls p Q -> all_logs p (fun l _ => Forall (fun e => Q (fst e)) l).
Proof.
  induction p as [a | e | c k IH]; simpl; auto.
  intros [Hc Hk] r. eapply all_logs_impl; [ | apply IH, Hk ].
  simpl. auto.
Qed.

(** Leaving the chain context after [p]. *)
Lemma all_logs_finally_exit {A} (p : prog A) :
  forall P : list entry -> result A -> Prop,
    all_logs p (fun l res =>
      forall r : result unit,
        P (l ++ [(get_chain_exit, observe get_chain_exit r)])
          (match r with inl e => inl e | inr _ => res end)) ->
    all_logs (finally p (do_call get_chain_exit)) P.
Proof.
  induction p as [a | e | c' k IH]; simpl; intros P H.
  - intros [e | x]; simpl; apply (H (inl e)) || apply (H (inr x)).
  - intros [e' | x]; simpl; apply (H (inl e')) || apply (H (inr x)).
  - intros r. apply IH. apply H.
Qed.

Lemma waits_confirmed l : waits Confirmed l.
Proof.
  induction l as [| [c o] l IH]; simpl; auto.
  destruct c, o; simpl; auto.
Qed.

Lemma aborts_watching {A} l (res : result A) :
  Forall (fun e => deploys_nothing (fst e)) l -> aborts Watching l res.
Proof.
  induction 1 as [| [c o] l Hc Hl IH]; simpl; auto.
  destruct c, o; simpl in *; auto; contradiction.
Qed.

#[local] Transparent deploy_contracts.

Ltac explore :=
  repeat first
    [ match goal with
      | |- forall r : result _, _ => intros [? | ?]; simpl
      | |- context [lift ?r] => destruct r eqn:?; simpl
      | |- context [if ?b then _ else _] => destruct b eqn:?; simpl
      | |- context [match given ?o with _ => _ end] =>
          destruct (given o) eqn:?; simpl
      | |- context [match ?s with EmptyString => _ | String _ _ => _ end] =>
          destruct s eqn:?; simpl
      | |- context [let '(_, _) := ?w in _] => destruct w; simpl
      end ].

Lemma main_in_order solver kw : all_logs (main solver kw) in_order.
Proof.
  unfold main, with_chain, resolve_owner, resolve_prealloc_addresses,
    deploy_contracts.
  simpl. explore.
  all: try (unfold in_order; simpl; rewrite ?String.eqb_refl; simpl; tauto).
  all: apply all_logs_finally_exit;
    (eapply all_logs_impl;
     [ | apply all_calls_logs, (run_simulation_calls _ _ _ _ deploys_nothing);
         auto ]);
    simpl; intros l' res Hquiet r;
    unfold in_order; simpl; rewrite ?String.eqb_refl; simpl;
    (split;
     [ apply waits_confirmed
     | apply aborts_watching, Forall_app; split;
       [ exact Hquiet | repeat constructor ] ]).
Qed.

#[local] Opaque deploy_contracts.

Lemma advance_unsubmitted e ph' :
  advance Unsubmitted e = Some ph' ->
  ph' = Unsubmitted
  \/ exists sender args tx,
       e = (Auction_deploy sender args, TxHash tx) /\ ph' = Submitted tx.
Proof.
  destruct e as [[] []]; simpl; intros H; try discriminate H;
    injection H as <-; eauto 6.
Qed.

Lemma advance_submitted tx e ph' :
  advance (Submitted tx) e = Some ph' ->
  ph' = Submitted tx
  \/ exists receipt,
       e = (check_succesful_tx tx, Receipt receipt) /\ ph' = Confirmed.
Proof.
  destruct e as [[] []]; simpl; intros H; try discriminate H;
    try (injection H as <-; now left).
  destruct (String.eqb_spec txhash tx) as [-> | Hne];
    injection H as <-; eauto.
Qed.

Lemma advance_token ph sender args o ph' :
  advance ph (Token_deploy sender args, o) = Some ph' -> ph = Confirmed.
Proof. destruct ph, o; simpl; intros H; now try discriminate H. Qed.

Lemma waits_sound l :
  forall ph, waits ph l ->
  forall i sender args o, l !! i = Some (Token_deploy sender args, o) ->
  match ph with
  | Confirmed => True
  | Submitted tx =>
      exists k receipt,
        (k < i)%nat /\ l !! k = Some (check_succesful_tx tx, Receipt receipt)
  | Unsubmitted =>
      exists j k sender' args' tx receipt,
        (j < k < i)%nat
        /\ l !! j = Some (Auction_deploy sender' args', TxHash tx)
        /\ l !! k = Some (check_succesful_tx tx, Receipt receipt)
  end.
Proof.
  induction l as [| e l IH]; intros ph Hw i sender args o Hi.
  - destruct i; discriminate Hi.
  - simpl in Hw. destruct (advance ph e) as [ph' |] eqn:Hadv; [ | contradiction ].
    destruct i as [| i]; simpl in Hi.
    + injection Hi as ->. apply advance_token in Hadv as ->. exact I.
    + specialize (IH ph' Hw i sender args o Hi). destruct ph.
      * apply advance_unsubmitted in Hadv
          as [-> | (sender' & args' & tx & -> & ->)].
        -- destruct IH as (j & k & sender' & args' & tx & receipt & ? & ? & ?).
           exists (S j), (S k), sender', args', tx, receipt.
           split; [ lia | auto ].
        -- destruct IH as (k & receipt & ? & ?).
           exists 0%nat, (S k), sender', args', tx, receipt.
           split; [ lia | auto ].
      * apply advance_submitted in Hadv as [-> | (receipt & -> & ->)].
        -- destruct IH as (k & receipt & ? & ?).
           exists (S k), receipt. split; [ lia | auto ].
        -- exists 0%nat, receipt. split; [ lia | reflexivity ].
      * exact I.
Qed.

Lemma aborts_closing {A} l (res : result A) :
  aborts Closing l res ->
  raised res /\ forall j c o, l !! j = Some (c, o) -> c = get_chain_exit.
Proof.
  induction l as [| [c o] l IH]; simpl.
  - intros H. split; [ exact H | ]. intros j c o Hj. destruct j; discriminate Hj.
  - destruct c; simpl; try contradiction. intros H.
    apply IH in H as [Hr Hl]. split; [ exact Hr | ].
    intros [| j] c' o' Hj; simpl in Hj.
    + now injection Hj as <- _.
    + eapply Hl, Hj.
Qed.

Lemma notice_open st e :
  st <> Closing ->
  exists st', notice st e = Some st'
    /\ (st' = Closing ->
        (exists sender args x, e = (Token_deploy sender args, Raised x))
        \/ (st = Pending /\ exists tx x, e = (check_succesful_tx tx, Raised x)))
    /\ (forall sender args x, e = (Token_deploy sender args, Raised x) ->
        st' = Closing)
    /\ (forall sender args tx, e = (Token_deploy sender args, TxHash tx) ->
        st' = Pending)
    /\ (st = Pending ->
        forall tx x, e = (check_succesful_tx tx, Raised x) -> st' = Closing).
Proof.
  intros Hst. destruct e as [c o].
  destruct st; [ | | congruence ]; destruct c, o; simpl; eexists;
    (split; [ reflexivity | ]);
    repeat split; intros; try congruence; eauto 8.
Qed.

Lemma aborts_sound {A} l (res : result A) :
  forall st, st <> Closing -> aborts st l res ->
  (forall i sender args e,
      l !! i = Some (Token_deploy sender args, Raised e) ->
      raised res
      /\ forall j c o, (i < j)%nat -> l !! j = Some (c, o) -> c = get_chain_exit)
  /\ (forall i sender args tx tx' e,
        l !! i = Some (Token_deploy sender args, TxHash tx) ->
        l !! S i = Some (check_succesful_tx tx', Raised e) ->
        raised res
        /\ forall j c o, (S i < j)%nat -> l !! j = Some (c, o) ->
                         c = get_chain_exit)
  /\ (st = Pending ->
      forall tx e, l !! 0%nat = Some (check_succesful_tx tx, Raised e) ->
      raised res
      /\ forall j c o, (0 < j)%nat -> l !! j = Some (c, o) -> c = get_chain_exit).
Proof.
  induction l as [| e l IH]; intros st Hst Hab.
  - repeat split; intros; try discriminate;
      match goal with H : [] !! ?i = Some _ |- _ => destruct i; discriminate H end.
  - simpl in Hab.
    destruct (notice_open st e Hst) as (st' & Hn & Hclosing & Hraise & Hsent & Hpend).
    rewrite Hn in Hab.
    assert (Hrest : st' = Closing ->
              raised res
              /\ forall j c o, (0 < j)%nat -> (e :: l) !! j = Some (c, o) ->
                               c = get_chain_exit).
    { intros ->. apply aborts_closing in Hab as [Hr Hl]. split; [ exact Hr | ].
      intros [| j] c o Hj Hlook; [ lia | ]. eapply Hl, Hlook. }
    assert (Hshift : forall n,
              (forall j c o, (n < j)%nat -> l !! j = Some (c, o) ->
                             c = get_chain_exit) ->
              forall j c o, (S n < j)%nat -> (e :: l) !! j = Some (c, o) ->
                            c = get_chain_exit).
    { intros n H [| j] c o Hj Hlook; [ lia | ].
      eapply (H j); [ lia | exact Hlook ]. }
    assert (Hno : st' = Closing ->
              forall i sender args o, l !! i = Some (Token_deploy sender args, o) ->
                                      False).
    { intros -> i sender args o Hi. apply aborts_closing in Hab as [_ Hl].
      discriminate (Hl _ _ _ Hi). }
    assert (Hopen : st' <> Closing ->
              (forall i sender args x,
                  l !! i = Some (Token_deploy sender args, Raised x) ->
                  raised res
                  /\ forall j c o, (S i < j)%nat -> (e :: l) !! j = Some (c, o) ->
                                   c = get_chain_exit)
              /\ (forall i sender args tx tx' x,
                    l !! i = Some (Token_deploy sender args, TxHash tx) ->
                    l !! S i = Some (check_succesful_tx tx', Raised x) ->
                    raised res
                    /\ forall j c o, (S (S i) < j)%nat ->
                                     (e :: l) !! j = Some (c, o) ->
                                     c = get_chain_exit)
              /\ (st' = Pending ->
                  forall tx x, l !! 0%nat = Some (check_succesful_tx tx, Raised x) ->
                  raised res
                  /\ forall j c o, (1 < j)%nat -> (e :: l) !! j = Some (c, o) ->
                                   c = get_chain_exit)).
    { intros Hst'. destruct (IH st' Hst' Hab) as (H1 & H2 & H3).
      split; [ | split ].
      - intros i sender args x Hi.
        destruct (H1 _ _ _ _ Hi) as [Hr Hl]. split; [ exact Hr | ].
        now apply Hshift.
      - intros i sender args tx tx' x Hi Hsi.
        destruct (H2 _ _ _ _ _ _ Hi Hsi) as [Hr Hl]. split; [ exact Hr | ].
        now apply Hshift.
      - intros Hp tx x H0.
        destruct (H3 Hp _ _ H0) as [Hr Hl]. split; [ exact Hr | ].
        now apply Hshift. }
    assert (Hdec : st' = Closing \/ st' <> Closing)
      by (destruct st'; [ right | right | left ]; congruence).
    split; [ | split ].
    + intros [| i] sender args x Hi; simpl in Hi.
      * injection Hi as ->. apply Hrest. eapply Hraise. reflexivity.
      * destruct Hdec as [Hc | Ho]; [ destruct (Hno Hc _ _ _ _ Hi) | ].
        eapply (proj1 (Hopen Ho)), Hi.
    + intros [| i] sender args tx tx' x Hi Hsi; simpl in Hi, Hsi.
      * injection Hi as ->.
        assert (Hp : st' = Pending) by (eapply Hsent; reflexivity).
        assert (Ho : st' <> Closing) by (rewrite Hp; congruence).
        eapply (proj2 (proj2 (Hopen Ho))); [ exact Hp | exact Hsi ].
      * destruct Hdec as [Hc | Ho]; [ destruct (Hno Hc _ _ _ _ Hi) | ].
        eapply (proj1 (proj2 (Hopen Ho))); [ exact Hi | exact Hsi ].
    + intros Hp tx x H0. simpl in H0. injection H0 as ->.
      apply Hrest. eapply Hpend; [ exact Hp | reflexivity ].
Qed.

(** C5. In every run of [main], a token deployment is submitted only
    after the auction deployment has returned its transaction hash and
    [check_succesful_tx] has returned the receipt of that hash.  When
    the token deployment fails, either because submitting it raises or
    because confirming it raises, the run ends with an exception and the
    only thing that still happens is leaving the chain context: nothing
    is sent to undo the auction deployment. *)
Theorem token_deployment_follows_auction {W}
    (answer : forall c : call, W -> result (resp c) * W)
    (solver : Z -> Z -> Z -> Z -> Z -> result (Z * Z)) (kw : kwargs) (w : W) :
  let r := run answer (main solver kw) w in
  (forall i sender args o,
      log r !! i = Some (Token_deploy sender args, o) ->
      exists j k sender' args' tx receipt,
        (j < k < i)%nat
        /\ log r !! j = Some (Auction_deploy sender' args', TxHash tx)
        /\ log r !! k = Some (check_succesful_tx tx, Receipt receipt))
  /\ (forall i sender args e,
        log r !! i = Some (Token_deploy sender args, Raised e) ->
        raised (returned r)
        /\ forall j c o, (i < j)%nat -> log r !! j = Some (c, o) ->
                         c = get_chain_exit)
  /\ (forall i sender args tx e,
        log r !! i = Some (Token_deploy sender args, TxHash tx) ->
        log r !! S i = Some (check_succesful_tx tx, Raised e) ->
        raised (returned r)
        /\ forall j c o, (S i < j)%nat -> log r !! j = Some (c, o) ->
                         c = get_chain_exit).
Proof.
  intros r.
  destruct (run_all_logs answer _ in_order w (main_in_order solver kw))
    as [Hwaits Haborts].
  fold r in Hwaits, Haborts.
  assert (Hopen : Watching <> Closing) by congruence.
  destruct (aborts_sound _ _ _ Hopen Haborts) as (Hraise & Hconfirm & _).
  split; [ | split ].
  - intros i sender args o Hi.
    exact (waits_sound _ _ Hwaits _ _ _ _ Hi).
  - exact Hraise.
  - intros i sender args tx e Hi Hsi. eapply Hconfirm; eauto.
Qed.

Lemma token_deployment_follows_auction_witness :
  let r := run (failing_confirmation 1 two_accounts)
               (main imported_solver defaults) 0%nat in
  (exists j k sender' args' tx receipt,
      (j < k < 9)%nat
      /\ log r !! j = Some (Auction_deploy sender' args', TxHash tx)
      /\ log r !! k = Some (check_succesful_tx tx, Receipt receipt))
  /\ raised (returned r)
  /\ forall j c o, (10 < j)%nat -> log r !! j = Some (c, o) ->
                   c = get_chain_exit.
Proof.
  intros r.
  destruct (token_deployment_follows_auction
              (failing_confirmation 1 two_accounts) imported_solver defaults
              0%nat) as (Hbefore & _ & Hconfirm).
  split.
  - apply (Hbefore 9%nat "0xowner"%string default_token_args (TxHash "0xtx1")).
    vm_compute. reflexivity.
  - apply (Hconfirm 9%nat "0xowner"%string default_token_args "0xtx1"%string
             (Other "ConfirmationTimeoutError")).
    + vm_compute. reflexivity.
    + vm_compute. reflexivity.
Defined.

End DeployFacts.

(** ** The bid simulation scheduler *)

Module SchedulerFacts.
Import Scheduler.

Section Runs.

Context {W : Type}.
Variable g : gateway W.
Variable r : request.

Lemma iterate_paced remaining :
  forall index w, paced index (trace (iterate g r remaining index w)).
Proof.
  induction remaining as [| remaining IH]; intros index w; simpl.
  - constructor.
  - destruct (auction_ended g w); [ constructor | ].
    destruct (next_bidder r index) as [b |]; [ | constructor ].
    destruct (submit_bid g b (current_price g w) w) as [[tx |] w1];
      [ | constructor ].
    destruct (await_receipt g tx w1) as [[] w2]; simpl.
    + apply paced_round, IH.
    + now apply paced_unconfirmed.
    + now apply paced_unconfirmed.
Qed.

(** The recorded bids are the confirmed ones, numbered from [index]. *)
Lemma iterate_recorded remaining :
  forall index w,
    let o := iterate g r remaining index w in
    map sequenceIndex (recorded o) = seq index (List.length (recorded o))
    /\ map fst (confirmations (trace o)) = map sequenceIndex (recorded o).
Proof.
  induction remaining as [| remaining IH]; intros index w; simpl.
  - auto.
  - destruct (auction_ended g w); [ simpl; auto | ].
    destruct (next_bidder r index) as [b |]; [ | simpl; auto ].
    destruct (submit_bid g b (current_price g w) w) as [[tx |] w1];
      [ | simpl; auto ].
    destruct (await_receipt g tx w1) as [[] w2]; simpl; auto.
    destruct (IH (S index) (pause g (bidIntervalSeconds r) w2)) as [Hseq Hconf].
    split; f_equal; assumption.
Qed.

(** A failed bid ends the run. *)
Lemma iterate_failure remaining :
  forall index w i e,
    let o := iterate g r remaining index w in
    In e (trace o) -> fails i e ->
    (index <= i)%nat
    /\ final o = Aborted
    /\ map sequenceIndex (recorded o) = seq index (i - index)
    /\ exists before, trace o = before ++ [e].
Proof.
  induction remaining as [| remaining IH]; intros index w i e; simpl.
  - intros [].
  - destruct (auction_ended g w); [ intros [] | ].
    destruct (next_bidder r index) as [b |].
    2: { simpl. intros [<- | [<- | []]] []. }
    destruct (submit_bid g b (current_price g w) w) as [[tx |] w1].
    2: { simpl. intros [<- | [<- | []]] Hf; simpl in Hf; [ destruct Hf | ].
         subst i. rewrite Nat.sub_diag.
         repeat split; auto. now exists [PriceRead index (current_price g w)]. }
    destruct (await_receipt g tx w1) as [[] w2]; simpl.
    + intros [<- | [<- | [<- | Hin]]] Hf; try destruct Hf.
      destruct (IH _ _ _ _ Hin Hf) as (Hle & Hfinal & Hrec & before & Htrace).
      split; [ lia | ]. split; [ exact Hfinal | ]. split.
      * replace (i - index)%nat with (S (i - S index)) by lia.
        simpl. now rewrite Hrec.
      * exists (PriceRead index (current_price g w)
                :: Submitted index b (current_price g w) tx
                :: Confirmed index tx :: before).
        simpl. now rewrite Htrace.
    + intros [<- | [<- | [<- | []]]] Hf; simpl in Hf; try destruct Hf.
      subst i. rewrite Nat.sub_diag. repeat split; auto.
      now exists [PriceRead index (current_price g w);
                  Submitted index b (current_price g w) tx].
    + intros [<- | [<- | [<- | []]]] Hf; simpl in Hf; try destruct Hf.
      subst i. rewrite Nat.sub_diag. repeat split; auto.
      now exists [PriceRead index (current_price g w);
                  Submitted index b (current_price g w) tx].
Qed.

End Runs.

Ltac prefix_cases pre Heq :=
  repeat (destruct pre as [| ? pre]; simpl in Heq;
          [ | first [ discriminate Heq | injection Heq as <- Heq ] ]).

Lemma paced_in_flight index t :
  paced index t ->
  forall pre post, t = pre ++ post -> 0 <= in_flight pre <= 1.
Proof.
  induction 1 as [ | | | | index price b tx rest Hrest IH ];
    intros pre post Heq.
  1-4: prefix_cases pre Heq; simpl; lia.
  prefix_cases pre Heq; simpl; try lia.
  specialize (IH pre post Heq). lia.
Qed.

Lemma paced_order index t :
  paced index t ->
  exists unsettled,
    submissions t = confirmations t ++ unsettled
    /\ (List.length unsettled <= 1)%nat.
Proof.
  induction 1 as [ | | | index price b tx why Hwhy
                   | index price b tx rest Hrest IH ]; simpl.
  - exists []. auto.
  - exists []. auto.
  - exists []. auto.
  - exists [(index, tx)]. auto.
  - destruct IH as (unsettled & Heq & Hlen).
    exists unsettled. now rewrite Heq.
Qed.

Lemma paced_submitted index t :
  paced index t ->
  forall pre k b price tx post,
    t = pre ++ Submitted k b price tx :: post ->
    (index <= k)%nat
    /\ ((index < k)%nat -> exists tx', In (Confirmed (k - 1) tx') pre).
Proof.
  induction 1 as [ | | | | index price0 b0 tx0 rest Hrest IH ];
    intros pre k b1 price1 tx1 post Heq.
  1-4: prefix_cases pre Heq; try discriminate Heq;
       inversion Heq; subst; split; lia.
  destruct pre as [| e1 [| e2 [| e3 pre]]]; simpl in Heq;
    try discriminate Heq.
  - inversion Heq; subst. split; lia.
  - injection Heq as <- <- <- Heq.
    destruct (IH _ _ _ _ _ _ Heq) as [Hle Hconf]. split; [ lia | ].
    intros Hlt. destruct (Nat.eq_dec k (S index)) as [-> | Hne].
    + exists tx0. simpl. rewrite Nat.sub_0_r. auto.
    + destruct Hconf as [tx2 Hin]; [ lia | ].
      exists tx2. simpl. auto.
Qed.

Lemma paced_price_read index t :
  paced index t ->
  forall pre k price post,
    t = pre ++ PriceRead k price :: post ->
    (index <= k)%nat
    /\ ((index < k)%nat -> exists tx', In (Confirmed (k - 1) tx') pre).
Proof.
  induction 1 as [ | | | | index price0 b0 tx0 rest Hrest IH ];
    intros pre k price1 post Heq.
  1-4: prefix_cases pre Heq; try discriminate Heq;
       inversion Heq; subst; split; lia.
  destruct pre as [| e1 [| e2 [| e3 pre]]]; simpl in Heq;
    try discriminate Heq.
  - inversion Heq; subst. split; lia.
  - injection Heq as <- <- <- Heq.
    destruct (IH _ _ _ _ Heq) as [Hle Hconf]. split; [ lia | ].
    intros Hlt. destruct (Nat.eq_dec k (S index)) as [-> | Hne].
    + exists tx0. simpl. rewrite Nat.sub_0_r. auto.
    + destruct Hconf as [tx2 Hin]; [ lia | ].
      exists tx2. simpl. auto.
Qed.

(** C6. The scheduler submits bids one after the other: bid [k+1] is
    neither priced nor submitted before bid [k] is confirmed, the
    confirmations come in the order of the submissions, and at no point
    of the run is more than one bid transaction unsettled. *)
Theorem bids_are_strictly_sequential {W} (g : gateway W) (r : request) (w : W) :
  let o := simulate g r NotStarted w in
  (forall pre k b price tx post,
      trace o = pre ++ Submitted (S k) b price tx :: post ->
      exists tx', In (Confirmed k tx') pre)
  /\ (forall pre k price post,
        trace o = pre ++ PriceRead (S k) price :: post ->
        exists tx', In (Confirmed k tx') pre)
  /\ (exists unsettled,
        submissions (trace o) = confirmations (trace o) ++ unsettled
        /\ (List.length unsettled <= 1)%nat)
  /\ map fst (confirmations (trace o)) = seq 0 (List.length (recorded o))
  /\ (forall pre post, trace o = pre ++ post -> 0 <= in_flight pre <= 1).
Proof.
  intros o. subst o. simpl.
  pose proof (iterate_paced g r (bidCount r) 0%nat w) as Hpaced.
  destruct (iterate_recorded g r (bidCount r) 0%nat w) as [Hseq Hconf].
  split; [ | split; [ | split; [ | split ] ] ].
  - intros pre k b price tx post Heq.
    destruct (paced_submitted _ _ Hpaced _ _ _ _ _ _ Heq) as [_ H].
    destruct H as [tx' Hin]; [ lia | ].
    exists tx'. now replace (S k - 1)%nat with k in Hin by lia.
  - intros pre k price post Heq.
    destruct (paced_price_read _ _ Hpaced _ _ _ _ Heq) as [_ H].
    destruct H as [tx' Hin]; [ lia | ].
    exists tx'. now replace (S k - 1)%nat with k in Hin by lia.
  - exact (paced_order _ _ Hpaced).
  - now rewrite Hconf.
  - exact (paced_in_flight _ _ Hpaced).
Qed.

Lemma bids_are_strictly_sequential_witness :
  (exists tx',
      In (Confirmed 0 tx')
         [PriceRead 0 100000000000000000;
          Submitted 0 "alice" 100000000000000000 "0xbid";
          Confirmed 0 "0xbid"; PriceRead 1 100000000000000000])
  /\ 0 <= in_flight [PriceRead 0 100000000000000000;
                     Submitted 0 "alice" 100000000000000000 "0xbid"] <= 1.
Proof.
  destruct (bids_are_strictly_sequential (timing_out_at 2) three_bidders
              auction_start) as (Hsub & _ & _ & _ & Hflight).
  split.
  - apply (Hsub _ 0%nat "bob"%string 100000000000000000 "0xbid"%string
             [Unconfirmed 1 "0xbid" TimedOut]).
    reflexivity.
  - apply (Hflight _ [Confirmed 0 "0xbid"; PriceRead 1 100000000000000000;
                      Submitted 1 "bob" 100000000000000000 "0xbid";
                      Unconfirmed 1 "0xbid" TimedOut]).
    reflexivity.
Defined.

(** C7. When the bid with sequence index [i], the [(i+1)]-th submitted,
    is rejected or its confirmation fails or times out, the run ends in
    [Aborted], that failure is the last thing the scheduler does, and
    the recorded bids are exactly the [i] bids confirmed before it; a
    time-out on the fourth submission leaves three recorded bids. *)
Theorem failed_bid_aborts {W} (g : gateway W) (r : request) (w : W)
    (i : nat) (e : event) :
  let o := simulate g r NotStarted w in
  In e (trace o) -> fails i e ->
  final o = Aborted
  /\ (exists before, trace o = before ++ [e])
  /\ List.length (recorded o) = i
  /\ map sequenceIndex (recorded o) = seq 0 i
  /\ map fst (confirmations (trace o)) = seq 0 i.
Proof.
  intros o Hin Hfails. subst o. simpl in *.
  destruct (iterate_failure g r _ _ _ _ _ Hin Hfails)
    as (_ & Hfinal & Hrec & Hlast).
  destruct (iterate_recorded g r (bidCount r) 0%nat w) as [_ Hconf].
  rewrite Nat.sub_0_r in Hrec.
  split; [ exact Hfinal | ]. split; [ exact Hlast | ].
  split; [ | split; [ exact Hrec | now rewrite Hconf ] ].
  rewrite <- (length_map sequenceIndex), Hrec. apply length_seq.
Qed.

Lemma failed_bid_aborts_witness :
  let o := simulate (timing_out_at 4) three_bidders NotStarted auction_start in
  final o = Aborted
  /\ (exists before, trace o = before ++ [Unconfirmed 3 "0xbid" TimedOut])
  /\ List.length (recorded o) = 3%nat
  /\ map sequenceIndex (recorded o) = seq 0 3
  /\ map fst (confirmations (trace o)) = seq 0 3.
Proof.
  apply (failed_bid_aborts (timing_out_at 4) three_bidders auction_start 3
           (Unconfirmed 3 "0xbid" TimedOut)).
  - vm_compute. tauto.
  - split; [ reflexivity | discriminate ].
Defined.

End SchedulerFacts.

(** ** More about the deployment script *)

Module MainFacts.
Import Py Deploy DeployFacts.

(** *** Generic facts about logs *)

Lemma all_logs_always {A} (p : prog A) (P : list entry -> result A -> Prop) :
  (forall l res, P l res) -> all_logs p P.
Proof.
  revert P. induction p as [a | e | c k IH]; simpl; intros P HP; auto.
Qed.

Lemma all_logs_conj {A} (p : prog A) :
  forall P Q : list entry -> result A -> Prop,
    all_logs p P -> all_logs p Q -> all_logs p (fun l res => P l res /\ Q l res).
Proof.
  induction p as [a | e | c k IH]; simpl; intros P Q HP HQ; auto.
Qed.

Lemma all_logs_bind {A B} (p : prog A) (f : A -> prog B) :
  forall P : list entry -> result B -> Prop,
    all_logs p (fun l1 r1 =>
      match r1 with
      | inl e => P l1 (inl e)
      | inr a => all_logs (f a) (fun l2 r2 => P (l1 ++ l2) r2)
      end) ->
    all_logs (bind p f) P.
Proof.
  induction p as [a | e | c k IH]; simpl; intros P H; auto.
Qed.

Lemma observe_returned c x : is_raised (observe c (inr x)) = false.
Proof. destruct c; reflexivity. Qed.

Lemma straight_cons {A} c x l (res : result A) :
  straight l res -> straight ((c, observe c (inr x)) :: l) res.
Proof.
  intros H. destruct l as [| e l].
  - intros Hr. change (is_raised (observe c (inr x)) = true) in Hr.
    rewrite observe_returned in Hr. discriminate Hr.
  - split; [ apply observe_returned | exact H ].
Qed.

Lemma plain_logs {A} (p : prog A) : plain p -> all_logs p straight.
Proof.
  induction p as [a | e | c k IH]; simpl; auto.
  intros [Hraise Hplain] [e | x].
  - rewrite Hraise. simpl. auto.
  - eapply all_logs_impl; [ | apply IH, Hplain ].
    intros l res. apply straight_cons.
Qed.

Lemma plain_bind {A B} (p : prog A) (f : A -> prog B) :
  plain p -> (forall a, plain (f a)) -> plain (bind p f).
Proof.
  induction p as [a | e | c k IH]; simpl; auto.
  intros [Hraise Hplain] Hf. split.
  - intros e. now rewrite Hraise.
  - intros x. now apply IH.
Qed.

Lemma plain_do_call c : plain (do_call c).
Proof. simpl. auto. Qed.

Lemma plain_new_accounts n : forall l, plain (new_accounts n l).
Proof.
  induction n as [| n IH]; intros l; simpl; auto.
Qed.

Lemma plain_run_simulation kw owner token_address auction_address :
  plain (run_simulation kw owner token_address auction_address).
Proof.
  unfold run_simulation. apply plain_bind; [ apply plain_do_call | ].
  intros accounts. apply plain_bind; [ apply plain_new_accounts | ].
  intros l. simpl. auto.
Qed.

(** *** Sound monitors *)

Lemma stops_closing {A} fatal l :
  forall previous (res : result A),
    stops fatal previous true l res ->
    raised res /\ forall j c o, l !! j = Some (c, o) -> c = get_chain_exit.
Proof.
  induction l as [| [c o] l IH]; simpl; intros previous res H.
  - split; [ exact H | ]. intros j c o Hj. destruct j; discriminate Hj.
  - destruct H as [-> H]. apply IH in H as [Hr Hl]. split; [ exact Hr | ].
    intros [| j] c' o' Hj; simpl in Hj.
    + now injection Hj as <- _.
    + eapply Hl, Hj.
Qed.

Lemma stops_sound {A} fatal l :
  forall previous (res : result A),
    stops fatal previous false l res ->
    forall i e, l !! i = Some e -> fatal (before previous l i) e = true ->
    raised res
    /\ forall j c o, (i < j)%nat -> l !! j = Some (c, o) -> c = get_chain_exit.
Proof.
  induction l as [| e0 l IH]; intros previous res H i e Hi Hfatal.
  - destruct i; discriminate Hi.
  - simpl in H. destruct i as [| i]; simpl in Hi, Hfatal.
    + injection Hi as ->. rewrite Hfatal in H.
      apply stops_closing in H as [Hr Hl]. split; [ exact Hr | ].
      intros [| j] c o Hj Hlook; [ lia | ]. eapply Hl, Hlook.
    + destruct (fatal previous e0).
      * apply stops_closing in H as [Hr Hl]. split; [ exact Hr | ].
        intros [| j] c o Hj Hlook; [ lia | ]. eapply Hl, Hlook.
      * assert (Hb : before (Some e0) l i = (e0 :: l) !! i)
          by (destruct i; reflexivity).
        rewrite <- Hb in Hfatal.
        destruct (IH _ _ H i e Hi Hfatal) as [Hr Hl]. split; [ exact Hr | ].
        intros [| j] c o Hj Hlook; [ lia | ].
        eapply (Hl j); [ lia | exact Hlook ].
Qed.

(** A log with at most a final raise, closed by leaving the chain
    context. *)
Lemma straight_stops {A} l :
  forall previous (res : result A) r,
    straight l res ->
    stops raises previous false
          (l ++ [(get_chain_exit, observe get_chain_exit r)])
          (after_exit r res).
Proof.
  induction l as [| e l IH]; intros previous res r H.
  - destruct r as [x | []]; simpl; exact I.
  - destruct l as [| e' l].
    + simpl in H. simpl. unfold raises at 1.
      destruct (is_raised (snd e)).
      * destruct r as [x | []]; simpl; auto.
      * destruct r as [x | []]; simpl; exact I.
    + destruct H as [Hquiet H]. change (stops raises (Some e) (raises previous e)
        ((e' :: l) ++ [(get_chain_exit, observe get_chain_exit r)])
        (after_exit r res)).
      unfold raises at 2. rewrite Hquiet. now apply IH.
Qed.

Lemma stops_quiet {A} fatal l :
  Forall (fun e => forall previous, fatal previous e = false) l ->
  forall previous (res : result A), stops fatal previous false l res.
Proof.
  induction 1 as [| e l He Hl IH]; intros previous res; simpl; auto.
  rewrite He. apply IH.
Qed.

#[local] Opaque run_simulation.

Ltac explore_main :=
  unfold main, with_chain, resolve_owner, resolve_prealloc_addresses,
    deploy_contracts;
  simpl; explore.

(** The simulation block behind a prefix [P] has already accepted. *)
Ltac simulation_tail known :=
  apply all_logs_finally_exit;
  (eapply all_logs_impl; [ | known ]);
  simpl.

Lemma main_stops_on_raise solver kw :
  all_logs (main solver kw) (stops raises None false).
Proof.
  explore_main.
  all: try (simpl; tauto).
  all: simulation_tail ltac:(apply plain_logs, plain_run_simulation);
    intros l' res Hstraight r; now apply straight_stops.
Qed.

(** X1. [main] lets every exception through: once a call has raised, the
    run ends with an exception and nothing more is called, except for
    leaving the chain context. *)
Theorem raised_call_ends_run {W}
    (answer : forall c : call, W -> result (resp c) * W)
    (solver : Z -> Z -> Z -> Z -> Z -> result (Z * Z)) (kw : kwargs) (w : W) :
  let r := run answer (main solver kw) w in
  forall i c e,
    log r !! i = Some (c, Raised e) ->
    raised (returned r)
    /\ forall j c' o, (i < j)%nat -> log r !! j = Some (c', o) ->
                      c' = get_chain_exit.
Proof.
  intros r i c e Hi.
  pose proof (run_all_logs answer _ _ w (main_stops_on_raise solver kw)) as H.
  fold r in H.
  apply (stops_sound _ _ _ _ H i (c, Raised e) Hi). reflexivity.
Qed.

Lemma raised_call_ends_run_witness :
  let r := run (failing_confirmation 0 two_accounts)
               (main imported_solver defaults) 0%nat in
  raised (returned r)
  /\ forall j c' o, (8 < j)%nat -> log r !! j = Some (c', o) ->
                    c' = get_chain_exit.
Proof.
  apply (raised_call_ends_run (failing_confirmation 0 two_accounts)
           imported_solver defaults 0%nat 8%nat
           (check_succesful_tx "0xtx0") (Other "ConfirmationTimeoutError")).
  vm_compute. reflexivity.
Defined.

(** *** The simulation block *)

#[local] Transparent run_simulation.

Lemma new_accounts_logs {B} n :
  forall l (f : list string -> prog B) (P : list entry -> result B -> Prop),
    (forall news, List.length news = n ->
       all_logs (f (l ++ news))
                (fun l2 r2 => P (map new_account_entry news ++ l2) r2)) ->
    (forall news e, (List.length news < n)%nat ->
       P (map new_account_entry news ++ [(personal_newAccount "0", Raised e)])
         (inl e)) ->
    all_logs (bind (new_accounts n l) f) P.
Proof.
  induction n as [| n IH]; intros l f P Hdone Hraise.
  - simpl. specialize (Hdone [] eq_refl). now rewrite app_nil_r in Hdone.
  - simpl. intros [e | a]; simpl.
    + apply (Hraise [] e). simpl. lia.
    + apply IH.
      * intros news Hlen. rewrite <- app_assoc. simpl.
        apply (Hdone (a :: news)). simpl. now rewrite Hlen.
      * intros news e Hlen. apply (Hraise (a :: news) e). simpl. lia.
Qed.

Lemma run_simulation_log kw sender token_address auction_address :
  all_logs (run_simulation kw sender token_address auction_address)
           (simulation_log kw sender token_address auction_address).
Proof.
  unfold run_simulation. simpl. intros [e | accounts]; simpl.
  - left. now exists e.
  - apply new_accounts_logs.
    + intros news Hlen. simpl.
      intros r; destruct r as [e | []] eqn:Hr; simpl;
        right; exists accounts, news; cbv zeta; right;
        [ exists (inl e) | exists (inr tt) ]; auto.
    + intros news e Hlen. right. exists accounts, news.
      cbv zeta. left. now exists e.
Qed.

#[local] Opaque run_simulation.

Lemma Forall_new_accounts (P : entry -> Prop) news :
  (forall a, P (new_account_entry a)) -> Forall P (map new_account_entry news).
Proof. intros H. induction news; simpl; constructor; auto. Qed.

Lemma simulation_log_calls kw sender token_address auction_address l res :
  simulation_log kw sender token_address auction_address l res ->
  Forall (fun e => simulation_call (fst e)) l.
Proof.
  intros H. unfold simulation_log in H. cbv zeta in H.
  destruct H
    as [(e & -> & _)
       | (accounts & news & [(e & _ & -> & _) | (r & _ & -> & _)])].
  - repeat constructor.
  - constructor; [ exact I | ]. apply Forall_app. split.
    + now apply Forall_new_accounts.
    + repeat constructor.
  - constructor; [ exact I | ]. apply Forall_app. split.
    + now apply Forall_new_accounts.
    + repeat constructor.
Qed.

(** *** Receipts without a contract address *)

Lemma has_no_address (receipt : gmap string pyval) :
  receipt !! "contractAddress"%string = None -> has_address receipt = false.
Proof. intros H. unfold has_address, contract_address. now rewrite H. Qed.

Lemma contract_address_found (receipt : gmap string pyval) a :
  contract_address receipt = inr a ->
  receipt !! "contractAddress"%string = Some a.
Proof.
  unfold contract_address.
  destruct (receipt !! "contractAddress"%string); congruence.
Qed.

#[local] Opaque contract_address.

Ltac known_addresses :=
  unfold has_address;
  repeat match goal with
         | H : contract_address _ = _ |- _ => rewrite H
         end.

Lemma unaddressed_elsewhere c o previous :
  (forall tx, c <> check_succesful_tx tx) -> unaddressed previous (c, o) = false.
Proof.
  intros Hc. destruct previous as [[c0 []] |], c; try reflexivity.
  all: destruct (Hc txhash eq_refl).
Qed.

Lemma simulation_is_addressed l r :
  Forall (fun e => simulation_call (fst e)) l ->
  Forall (fun e => forall previous, unaddressed previous e = false)
         (l ++ [(get_chain_exit, observe get_chain_exit r)]).
Proof.
  intros H. apply Forall_app. split.
  - eapply Forall_impl; [ exact H | ].
    intros [c o] Hc previous. apply unaddressed_elsewhere.
    intros tx ->. exact Hc.
  - repeat constructor. intros previous. now apply unaddressed_elsewhere.
Qed.

#[local] Arguments addressed : simpl never.

Lemma main_addressed solver kw : all_logs (main solver kw) addressed.
Proof.
  explore_main.
  all: try (unfold addressed; simpl; known_addresses; simpl; tauto).
  all: simulation_tail ltac:(apply run_simulation_log);
    intros l' res Hlog r; unfold addressed; simpl; known_addresses; simpl;
    apply stops_quiet, simulation_is_addressed;
    eapply simulation_log_calls, Hlog.
Qed.

(** X11. When the receipt of the auction deployment or of the token
    deployment has no ["contractAddress"], the run ends with an
    exception and nothing more is called, except for leaving the chain
    context: no token is deployed for an auction without an address, and
    no auction is set up with a token without one. *)
Theorem receipt_without_address_ends_run {W}
    (answer : forall c : call, W -> result (resp c) * W)
    (solver : Z -> Z -> Z -> Z -> Z -> result (Z * Z)) (kw : kwargs) (w : W) :
  let r := run answer (main solver kw) w in
  forall i c tx tx' (receipt : gmap string pyval),
    is_deployment c = true ->
    log r !! i = Some (c, TxHash tx) ->
    log r !! S i = Some (check_succesful_tx tx', Receipt receipt) ->
    receipt !! "contractAddress"%string = None ->
    raised (returned r)
    /\ forall j c' o, (S i < j)%nat -> log r !! j = Some (c', o) ->
                      c' = get_chain_exit.
Proof.
  intros r i c tx tx' receipt Hc Hi Hsi Hnone.
  pose proof (run_all_logs answer _ _ w (main_addressed solver kw)) as H.
  fold r in H. unfold addressed in H.
  apply (stops_sound _ _ _ _ H (S i) _ Hsi).
  cbn [before].
  assert (Hfatal : forall x, x = Some (c, TxHash tx) ->
            unaddressed x (check_succesful_tx tx', Receipt receipt) = true).
  { intros x ->. cbn [unaddressed]. rewrite Hc.
    now rewrite (has_no_address _ Hnone). }
  apply Hfatal, Hi.
Qed.

#[local] Opaque contract_address.

Lemma receipt_without_address_ends_run_witness :
  let r := run (bare_receipts two_accounts)
               (main imported_solver defaults) 0%nat in
  raised (returned r)
  /\ forall j c' o, (8 < j)%nat -> log r !! j = Some (c', o) ->
                    c' = get_chain_exit.
Proof.
  apply (receipt_without_address_ends_run (bare_receipts two_accounts)
           imported_solver defaults 0%nat 7%nat
           (Auction_deploy "0xowner" [VInt 6; VInt 66]) "0xtx0"%string
           "0xtx0"%string ∅).
  - reflexivity.
  - vm_compute. reflexivity.
  - vm_compute. reflexivity.
  - reflexivity.
Defined.

(** *** Entering and leaving the chain context *)

Lemma closes_sound l :
  forall b, closes b l ->
    (l = [] /\ b = true)
    \/ (b = false
        /\ (exists o, last l = Some (get_chain_exit, o))
        /\ occurrences is_exit l = 1%nat).
Proof.
  induction l as [| [c o] l IH]; simpl; intros b H.
  - left. auto.
  - destruct H as [-> H]. right. split; [ reflexivity | ].
    destruct (IH _ H) as [[-> Hexit] | (Hnot & [o' Hlast] & Hocc)].
    + destruct c; try discriminate Hexit. simpl. eauto.
    + rewrite Hnot, Hocc. split; [ | reflexivity ].
      exists o'. destruct l; [ discriminate Hlast | exact Hlast ].
Qed.

Lemma guarded_sound l :
  guarded l ->
  (entered l = true -> exists o, last l = Some (get_chain_exit, o))
  /\ occurrences is_exit l = (if entered l then 1 else 0)%nat.
Proof.
  induction l as [| e l IH]; simpl.
  - intros _. split; [ discriminate | reflexivity ].
  - destruct (is_entered e) eqn:He; simpl.
    + intros H.
      assert (Hcall : is_exit (fst e) = false)
        by (destruct e as [[] []]; try discriminate He; reflexivity).
      rewrite Hcall.
      destruct (closes_sound _ _ H) as [[_ Hb] | (_ & [o Hlast] & Hocc)];
        [ discriminate Hb | ].
      split; [ | now rewrite Hocc ].
      intros _. exists o. destruct l; [ discriminate Hlast | exact Hlast ].
    + intros [Hcall H]. rewrite Hcall.
      destruct (IH H) as [Hlast Hocc]. split; [ | exact Hocc ].
      intros Hin. destruct (Hlast Hin) as [o Ho]. exists o.
      destruct l; [ discriminate Ho | exact Ho ].
Qed.

Lemma closes_simulation l o :
  Forall (fun e => simulation_call (fst e)) l ->
  closes false (l ++ [(get_chain_exit, o)]).
Proof.
  induction 1 as [| [c o'] l Hc Hl IH]; simpl; auto.
  split; [ reflexivity | ].
  destruct c; try destruct Hc; exact IH.
Qed.

Lemma main_guarded solver kw :
  all_logs (main solver kw) (fun l _ => guarded l).
Proof.
  explore_main.
  all: try (simpl; repeat split; reflexivity).
  all: simulation_tail ltac:(apply run_simulation_log);
    intros l' res Hlog r; repeat split;
    eapply closes_simulation, simulation_log_calls, Hlog.
Qed.

(** X3. The chain context is left exactly once, as the very last call of
    the run, whenever it was entered, however the run ends; and it is
    never left when entering it raised or was not reached. *)
Theorem chain_context_is_left {W}
    (answer : forall c : call, W -> result (resp c) * W)
    (solver : Z -> Z -> Z -> Z -> Z -> result (Z * Z)) (kw : kwargs) (w : W) :
  let r := run answer (main solver kw) w in
  (entered (log r) = true -> exists o, last (log r) = Some (get_chain_exit, o))
  /\ occurrences is_exit (log r) = (if entered (log r) then 1 else 0)%nat.
Proof.
  intros r. apply guarded_sound.
  apply (run_all_logs answer _ (fun l _ => guarded l) w (main_guarded solver kw)).
Qed.

Lemma chain_context_is_left_witness :
  let r := run (failing_confirmation 0 two_accounts)
               (main imported_solver defaults) 0%nat in
  exists o, last (log r) = Some (get_chain_exit, o).
Proof.
  intros r.
  destruct (chain_context_is_left (failing_confirmation 0 two_accounts)
              imported_solver defaults 0%nat) as [H _].
  apply H. reflexivity.
Defined.

(** *** How often [main] deploys *)

Lemma occurrences_app kind l1 l2 :
  occurrences kind (l1 ++ l2)
  = (occurrences kind l1 + occurrences kind l2)%nat.
Proof. induction l1 as [| e l1 IH]; simpl; [ reflexivity | lia ]. Qed.

Lemma occurrences_none kind l :
  Forall (fun e => kind (fst e) = false) l -> occurrences kind l = 0%nat.
Proof. induction 1 as [| e l He Hl IH]; simpl; [ | rewrite He ]; auto. Qed.

Lemma simulation_log_occurrences kw sender token_address auction_address l res :
  simulation_log kw sender token_address auction_address l res ->
  occurrences is_auction_deploy l = 0%nat
  /\ occurrences is_token_deploy l = 0%nat
  /\ occurrences is_setup l = 0%nat
  /\ (occurrences is_simulation l <= 1)%nat.
Proof.
  intros Hlog.
  pose proof (simulation_log_calls _ _ _ _ _ _ Hlog) as Hcalls.
  repeat split.
  1-3: apply occurrences_none; (eapply Forall_impl; [ exact Hcalls | ]);
       intros [[] o] Hc; try destruct Hc; reflexivity.
  unfold simulation_log in Hlog. cbv zeta in Hlog.
  destruct Hlog
    as [(e & -> & _)
       | (accounts & news & [(e & _ & -> & _) | (r & _ & -> & _)])];
    simpl; try lia.
  all: rewrite occurrences_app,
         (occurrences_none _ (map new_account_entry news))
         by now apply Forall_new_accounts.
  all: simpl; lia.
Qed.

Lemma main_at_most_once solver kw :
  all_logs (main solver kw) (fun l _ => at_most_once l).
Proof.
  explore_main.
  all: try (unfold at_most_once; simpl; lia).
  all: simulation_tail ltac:(apply run_simulation_log);
    intros l' res Hlog r;
    destruct (simulation_log_occurrences _ _ _ _ _ _ Hlog)
      as (Ha & Ht & Hs & Hsim);
    unfold at_most_once; simpl; rewrite !occurrences_app, Ha, Ht, Hs;
    simpl; lia.
Qed.

(** X10. In no run does [main] deploy the auction twice, deploy the
    token twice, set the auction up twice or start the simulation twice:
    nothing is retried. *)
Theorem nothing_is_done_twice {W}
    (answer : forall c : call, W -> result (resp c) * W)
    (solver : Z -> Z -> Z -> Z -> Z -> result (Z * Z)) (kw : kwargs) (w : W) :
  let l := log (run answer (main solver kw) w) in
  (occurrences is_auction_deploy l <= 1)%nat
  /\ (occurrences is_token_deploy l <= 1)%nat
  /\ (occurrences is_setup l <= 1)%nat
  /\ (occurrences is_simulation l <= 1)%nat.
Proof.
  intros l.
  apply (run_all_logs answer _ (fun l _ => at_most_once l) w
           (main_at_most_once solver kw)).
Qed.

(** *** A run that returns *)

Ltac found_addresses :=
  repeat match goal with
         | H : contract_address _ = inr _ |- _ =>
             apply contract_address_found in H
         end.

Ltac deployment_at i :=
  exists i; do 14 eexists;
  repeat (split; [ first [ reflexivity | eassumption ] | ]);
  first [ reflexivity | eassumption ].

Ltac find_deployment :=
  unfold deployed_and_set_up; found_addresses;
  first [ deployment_at 4%nat | deployment_at 5%nat | deployment_at 6%nat
        | deployment_at 7%nat | deployment_at 8%nat | deployment_at 9%nat ].

Lemma main_succeeds_in_full solver kw :
  all_logs (main solver kw) succeeds_in_full.
Proof.
  explore_main.
  all: try exact I.
  all: try (unfold succeeds_in_full; find_deployment).
  all: simulation_tail ltac:(apply all_logs_always; intros; exact I);
    intros l' res _ r; destruct r as [e | []], res as [e' | []];
    try exact I; unfold succeeds_in_full; find_deployment.
Qed.

(** X2. A run of [main] that returns has deployed the auction with two
    integer price parameters, confirmed it, deployed the token for the
    address found in that receipt and from the same account, confirmed
    it, set the auction up with the address found in the token's receipt
    and confirmed that too, in six consecutive calls. *)
Theorem returning_run_is_complete {W}
    (answer : forall c : call, W -> result (resp c) * W)
    (solver : Z -> Z -> Z -> Z -> Z -> result (Z * Z)) (kw : kwargs) (w : W) :
  let r := run answer (main solver kw) w in
  returned r = inr tt -> deployed_and_set_up (log r).
Proof.
  intros r Hreturned.
  pose proof (run_all_logs answer _ _ w (main_succeeds_in_full solver kw)) as H.
  fold r in H. now rewrite Hreturned in H.
Qed.

Lemma returning_run_is_complete_witness :
  deployed_and_set_up
    (log (run (quiet_chain five_accounts) (main imported_solver rehearsal)
              0%nat)).
Proof.
  apply (returning_run_is_complete (quiet_chain five_accounts)
           imported_solver rehearsal 0%nat).
  reflexivity.
Defined.

(** *** The account everything is sent from *)

Lemma simulation_log_sender kw sender token_address auction_address l res :
  simulation_log kw sender token_address auction_address l res ->
  Forall (fun e => forall s, sender_of (fst e) = Some s -> s = sender) l.
Proof.
  intros H. unfold simulation_log in H. cbv zeta in H.
  destruct H
    as [(e & -> & _)
       | (accounts & news & [(e & _ & -> & _) | (r & _ & -> & _)])].
  - repeat constructor. discriminate.
  - constructor; [ discriminate | ]. apply Forall_app. split.
    + apply Forall_new_accounts. discriminate.
    + repeat constructor. discriminate.
  - constructor; [ discriminate | ]. apply Forall_app. split.
    + apply Forall_new_accounts. discriminate.
    + repeat constructor. simpl. now intros s [= <-].
Qed.

Ltac first_account :=
  repeat match goal with
         | H : index ?l 0 = inr _ |- _ =>
             destruct l; [ discriminate H | injection H as -> ]
         end.

Ltac owner_known :=
  unfold sent_by_owner, resolved_owner;
  try match goal with
      | H : given (owner _) = _ |- _ => rewrite H
      end;
  first_account; simpl.

Ltac sent_by :=
  simpl; intros ? Hsender;
  first [ discriminate Hsender
        | injection Hsender as <-;
          split; [ intros Hempty; subst; discriminate | reflexivity ] ].

Lemma main_sent_by_owner solver kw :
  all_logs (main solver kw) (fun l _ => sent_by_owner kw l).
Proof.
  explore_main.
  all: try (owner_known; repeat (apply List.Forall_cons; [ sent_by | ]);
            apply List.Forall_nil).
  all: simulation_tail ltac:(apply run_simulation_log);
    intros l' res Hlog r;
    pose proof (simulation_log_sender _ _ _ _ _ _ Hlog) as Hsent;
    owner_known; repeat (apply List.Forall_cons; [ sent_by | ]);
    apply Forall_app; split;
    [ eapply Forall_impl; [ exact Hsent | ];
      intros [c o] Hc s' Hs; rewrite (Hc _ Hs);
      split; [ intros Hempty; subst; discriminate | reflexivity ]
    | apply List.Forall_cons; [ sent_by | apply List.Forall_nil ] ].
Qed.

(** X6. Every transaction of a run, and the simulation, is sent from one
    account: the [--owner] option when it is given and not empty, and
    otherwise the first account of the first accounts query.  That
    account is never the empty string. *)
Theorem everything_is_sent_by_the_owner {W}
    (answer : forall c : call, W -> result (resp c) * W)
    (solver : Z -> Z -> Z -> Z -> Z -> result (Z * Z)) (kw : kwargs) (w : W) :
  let r := run answer (main solver kw) w in
  forall c o s,
    In (c, o) (log r) -> sender_of c = Some s ->
    s <> EmptyString /\ resolved_owner kw (log r) = Some s.
Proof.
  intros r c o s Hin Hsender.
  pose proof (run_all_logs answer _ (fun l _ => sent_by_owner kw l) w
                (main_sent_by_owner solver kw)) as H.
  fold r in H. unfold sent_by_owner in H.
  rewrite List.Forall_forall in H. exact (H (c, o) Hin s Hsender).
Qed.

Lemma everything_is_sent_by_the_owner_witness :
  ("0xboss" <> EmptyString
   /\ resolved_owner rehearsal
        (log (run (quiet_chain five_accounts)
                  (main imported_solver rehearsal) 0%nat))
      = Some "0xboss"%string)
  /\ ("0xowner" <> EmptyString
      /\ resolved_owner defaults
           (log (run (quiet_chain two_accounts)
                     (main imported_solver defaults) 0%nat))
         = Some "0xowner"%string).
Proof.
  split.
  - apply (everything_is_sent_by_the_owner (quiet_chain five_accounts)
             imported_solver rehearsal 0%nat
             (auction_setup "0xboss" (VStr "at:0xtx0") (VStr "at:0xtx1"))
             (TxHash "0xtx2") "0xboss"%string); [ logged | reflexivity ].
  - apply (everything_is_sent_by_the_owner (quiet_chain two_accounts)
             imported_solver defaults 0%nat
             (Token_deploy "0xowner" default_token_args)
             (TxHash "0xtx1") "0xowner"%string); [ logged | reflexivity ].
Defined.

(** *** Preallocation addresses *)

Lemma created_app l1 l2 : created (l1 ++ l2) = created l1 ++ created l2.
Proof.
  induction l1 as [| [c o] l1 IH]; simpl; [ reflexivity | ].
  destruct c, o; simpl; now rewrite ?IH.
Qed.

Lemma created_simulation l o :
  Forall (fun e => simulation_call (fst e)) l ->
  created (l ++ [(get_chain_exit, o)]) = [].
Proof.
  intros H. rewrite created_app. simpl. rewrite app_nil_r.
  induction H as [| [c o'] l Hc Hl IH]; simpl; [ reflexivity | ].
  destruct c; try destruct Hc; destruct o'; exact IH.
Qed.

Lemma slice_length_le {A} (l : list A) (start stop : Z) :
  0 <= start -> 0 <= stop ->
  Z.of_nat (List.length (slice l start stop)) <= Z.max 0 (stop - start).
Proof.
  intros Hstart Hstop. unfold slice, clamp.
  replace (start <? 0) with false by (symmetry; lia).
  replace (stop <? 0) with false by (symmetry; lia).
  pose proof (firstn_le_length
                (Z.to_nat (Z.min stop (Z.of_nat (List.length l))
                           - Z.min start (Z.of_nat (List.length l))))
                (skipn (Z.to_nat (Z.min start (Z.of_nat (List.length l)))) l)).
  lia.
Qed.

Ltac in_log := repeat first [ left; reflexivity | right ].

Ltac where_from :=
  unfold preallocated; cbn [created];
  match goal with
  | H : given (prealloc_addresses _) = _ |- _ => rewrite H
  end;
  first [ eexists; split; [ reflexivity | ];
          first [ reflexivity
                | left; split; [ first [ reflexivity | assumption ] | ];
                  eexists; refine (conj _ eq_refl); simpl; in_log ]
        | match goal with
          | |- exists _, [_; _; VList [VStr ?x; VStr ?y]; _] !! _ = _ /\ _ =>
              exists [x; y]; split; [ reflexivity | ];
              right; split; [ | reflexivity ];
              first [ reflexivity | do 2 f_equal; symmetry; assumption ]
          end ].

Ltac prealloc_entry :=
  cbv beta; cbn [fst];
  lazymatch goal with
  | |- preallocated _ _ (Token_deploy _ _) => where_from
  | |- _ => exact I
  end.

Lemma main_preallocates solver kw :
  all_logs (main solver kw) (fun l _ => preallocates kw l).
Proof.
  explore_main.
  all: try (unfold preallocates;
            repeat (apply List.Forall_cons; [ prealloc_entry | ]);
            apply List.Forall_nil).
  all: simulation_tail ltac:(apply run_simulation_log);
    intros l' res Hlog r;
    pose proof (simulation_log_calls _ _ _ _ _ _ Hlog) as Hcalls;
    pose proof (created_simulation l' (observe get_chain_exit r) Hcalls)
      as Hcreated;
    unfold preallocates;
    repeat (apply List.Forall_cons; [ prealloc_entry | ]);
    apply Forall_app; split;
    [ eapply Forall_impl; [ exact Hcalls | ];
      intros [c o] Hc; destruct c; try destruct Hc; exact I
    | apply List.Forall_cons; [ exact I | apply List.Forall_nil ] ].
Qed.

(** X7. The preallocation addresses of the token are the comma-separated
    pieces of [--prealloc-addresses] when that option is given and not
    empty.  Otherwise they are either [accounts[1:3]] of an accounts
    query of the run, with no wallet created, or, when wallets were
    created, exactly the two created addresses with "0x" in front, in
    the order of creation; in both cases at most two. *)
Theorem preallocation_addresses {W}
    (answer : forall c : call, W -> result (resp c) * W)
    (solver : Z -> Z -> Z -> Z -> Z -> result (Z * Z)) (kw : kwargs) (w : W) :
  let l := log (run answer (main solver kw) w) in
  forall sender args o,
    In (Token_deploy sender args, o) l ->
    exists addresses,
      args !! 2%nat = Some (VList (VStr <$> addresses))
      /\ (forall text, given (prealloc_addresses kw) = Some text ->
            addresses = split comma text)
      /\ (given (prealloc_addresses kw) = None ->
          (List.length addresses <= 2)%nat
          /\ ((created l = []
               /\ exists accounts,
                    In (eth_accounts, Accounts accounts) l
                    /\ addresses = slice accounts 1 3)
              \/ (addresses = created l /\ List.length addresses = 2%nat))).
Proof.
  intros l sender args o Hin.
  pose proof (run_all_logs answer _ (fun l _ => preallocates kw l) w
                (main_preallocates solver kw)) as H.
  fold l in H. unfold preallocates in H. rewrite List.Forall_forall in H.
  destruct (H _ Hin) as (addresses & Hargs & Hfrom). simpl in Hfrom.
  exists addresses. split; [ exact Hargs | ].
  destruct (given (prealloc_addresses kw)) as [text |].
  - split; [ | discriminate ]. now intros text' [= <-].
  - split; [ discriminate | ]. intros _. split; [ | exact Hfrom ].
    destruct Hfrom as [(_ & accounts & _ & ->) | [_ ->]]; [ | lia ].
    pose proof (slice_length_le accounts 1 3). lia.
Qed.

Lemma preallocation_addresses_witness :
  exists addresses,
    default_token_args !! 2%nat = Some (VList (VStr <$> addresses))
    /\ (forall text, given (prealloc_addresses defaults) = Some text ->
          addresses = split comma text)
    /\ (given (prealloc_addresses defaults) = None ->
        (List.length addresses <= 2)%nat
        /\ ((created (log (run (quiet_chain two_accounts)
                               (main imported_solver defaults) 0%nat)) = []
             /\ exists accounts,
                  In (eth_accounts, Accounts accounts)
                     (log (run (quiet_chain two_accounts)
                               (main imported_solver defaults) 0%nat))
                  /\ addresses = slice accounts 1 3)
            \/ (addresses
                = created (log (run (quiet_chain two_accounts)
                                    (main imported_solver defaults) 0%nat))
                /\ List.length addresses = 2%nat))).
Proof.
  apply (preallocation_addresses (quiet_chain two_accounts) imported_solver
           defaults 0%nat "0xowner"%string default_token_args
           (TxHash "0xtx1")).
  logged.
Defined.

(** *** The simulation *)

Lemma simulation_log_simulated kw sender token_address auction_address l res :
  0 <= bidders kw ->
  simulation_log kw sender token_address auction_address l res ->
  forall big, (forall x, In x l -> In x big) ->
    Forall (fun e => simulated kw big (fst e)) l.
Proof.
  intros Hbidders H big Hbig. unfold simulation_log in H. cbv zeta in H.
  destruct H
    as [(e & -> & _)
       | (accounts & news & [(e & _ & -> & _) | (r & Hlen & -> & _)])].
  - repeat constructor.
  - constructor; [ exact I | ]. apply Forall_app. split.
    + now apply Forall_new_accounts.
    + repeat constructor.
  - constructor; [ exact I | ]. apply Forall_app. split.
    + now apply Forall_new_accounts.
    + apply List.Forall_cons; [ | apply List.Forall_nil ]. simpl.
      pose proof (slice_length_le accounts 3 (bidders kw + 3)).
      rewrite length_app, Hlen.
      split; [ lia | ]. do 3 (split; [ reflexivity | ]).
      exists accounts, news. split; [ | split; [ reflexivity | ] ].
      * apply Hbig. now left.
      * rewrite List.Forall_forall. intros a Ha. apply Hbig. right.
        apply in_or_app. left. now apply (in_map new_account_entry).
Qed.

Ltac kept_in_log :=
  let x := fresh "x" in
  let Hx := fresh "Hx" in
  intros x Hx; simpl;
  repeat first [ apply in_or_app; left; exact Hx | right ].

Lemma main_simulates solver kw :
  0 <= bidders kw -> all_logs (main solver kw) (fun l _ => simulates kw l).
Proof.
  intros Hbidders. explore_main.
  all: try (unfold simulates;
            repeat (apply List.Forall_cons; [ exact I | ]);
            apply List.Forall_nil).
  all: simulation_tail ltac:(apply run_simulation_log);
    intros l' res Hlog r; unfold simulates;
    repeat (apply List.Forall_cons; [ exact I | ]);
    apply Forall_app; split;
    [ apply (simulation_log_simulated _ _ _ _ _ _ Hbidders Hlog);
      kept_in_log
    | apply List.Forall_cons; [ exact I | apply List.Forall_nil ] ].
Qed.

(** X9. When [--bidders] is not negative, the simulation is started with
    exactly that many bidder addresses: the accounts of an accounts query
    from index 3 on, at most [--bidders] of them, followed by accounts
    created with the password "0"; and it receives [--bids],
    [--bid-interval] and [--bid-price] as they were given. *)
Theorem simulation_gets_its_bidders {W}
    (answer : forall c : call, W -> result (resp c) * W)
    (solver : Z -> Z -> Z -> Z -> Z -> result (Z * Z)) (kw : kwargs) (w : W) :
  let l := log (run answer (main solver kw) w) in
  0 <= bidders kw ->
  forall token_address auction_address sender bidder_addresses
         bids_number interval price o,
    In (auction_simulation token_address auction_address sender
          bidder_addresses bids_number interval price, o) l ->
    Z.of_nat (List.length bidder_addresses) = bidders kw
    /\ bids_number = bids kw
    /\ interval = bid_interval kw
    /\ price = bid_price kw
    /\ exists accounts news,
         In (eth_accounts, Accounts accounts) l
         /\ bidder_addresses = slice accounts 3 (bidders kw + 3) ++ news
         /\ Forall (fun a => In (personal_newAccount "0", Address a) l) news.
Proof.
  intros l Hbidders token_address auction_address sender bidder_addresses
    bids_number interval price o Hin.
  pose proof (run_all_logs answer _ (fun l _ => simulates kw l) w
                (main_simulates solver kw Hbidders)) as H.
  fold l in H. unfold simulates in H. rewrite List.Forall_forall in H.
  exact (H _ Hin).
Qed.

Lemma simulation_gets_its_bidders_witness :
  let l := log (run (quiet_chain five_accounts)
                    (main imported_solver rehearsal) 0%nat) in
  Z.of_nat (List.length ["0xa3"; "0xa4"; "0xnew"; "0xnew"; "0xnew"]%string)
  = bidders rehearsal
  /\ 10 = bids rehearsal
  /\ 5 = bid_interval rehearsal
  /\ 50000000000000000 = bid_price rehearsal
  /\ exists accounts news,
       In (eth_accounts, Accounts accounts) l
       /\ ["0xa3"; "0xa4"; "0xnew"; "0xnew"; "0xnew"]%string
          = slice accounts 3 (bidders rehearsal + 3) ++ news
       /\ Forall (fun a => In (personal_newAccount "0", Address a) l) news.
Proof.
  apply (simulation_gets_its_bidders (quiet_chain five_accounts)
           imported_solver rehearsal 0%nat ltac:(vm_compute; discriminate)
           (VStr "at:0xtx1") (VStr "at:0xtx0") "0xboss"%string
           ["0xa3"; "0xa4"; "0xnew"; "0xnew"; "0xnew"]%string
           10 5 50000000000000000 Done).
  logged.
Defined.

Lemma main_never_simulates solver kw :
  simulation kw = false ->
  all_logs (main solver kw) (fun l _ => never_simulates l).
Proof.
  intros Hoff.
  unfold main, with_chain, resolve_owner, resolve_prealloc_addresses,
    deploy_contracts.
  rewrite Hoff. simpl. explore.
  all: unfold never_simulates;
    repeat (apply List.Forall_cons; [ split; reflexivity | ]);
    apply List.Forall_nil.
Qed.

#[local] Transparent run_simulation.

Lemma main_ignores_simulation_options solver kw n b p i :
  simulation kw = false ->
  main solver (set_simulation_options n b p i kw) = main solver kw.
Proof. intros Hoff. destruct kw. simpl in Hoff. subst. reflexivity. Qed.

#[local] Opaque run_simulation.

(** X8. Without [--simulation] no account is created for bidding and the
    simulation is not started, and [main] is the same program whatever
    [--bidders], [--bids], [--bid-price] and [--bid-interval] are. *)
Theorem simulation_is_optional {W}
    (answer : forall c : call, W -> result (resp c) * W)
    (solver : Z -> Z -> Z -> Z -> Z -> result (Z * Z)) (kw : kwargs) (w : W) :
  simulation kw = false ->
  (forall c o, In (c, o) (log (run answer (main solver kw) w)) ->
     is_new_account c = false /\ is_simulation c = false)
  /\ forall n b p i,
       main solver (set_simulation_options n b p i kw) = main solver kw.
Proof.
  intros Hoff. split.
  - intros c o Hin.
    pose proof (run_all_logs answer _ (fun l _ => never_simulates l) w
                  (main_never_simulates solver kw Hoff)) as H.
    unfold never_simulates in H. rewrite List.Forall_forall in H.
    exact (H _ Hin).
  - intros n b p i. now apply main_ignores_simulation_options.
Qed.

Lemma simulation_is_optional_witness :
  (is_new_account (Token_deploy "0xowner" default_token_args) = false
   /\ is_simulation (Token_deploy "0xowner" default_token_args) = false)
  /\ main imported_solver (set_simulation_options 3 4 5 6 defaults)
     = main imported_solver defaults.
Proof.
  destruct (simulation_is_optional (quiet_chain two_accounts) imported_solver
              defaults 0%nat eq_refl) as [Hcalls Hsame].
  split; [ | apply Hsame ].
  apply (Hcalls _ (TxHash "0xtx1")). logged.
Defined.

(** *** Errors before anything is deployed *)

Ltac no_account :=
  unfold without_accounts; simpl;
  let Hlook := fresh "Hlook" in
  intros Hlook;
  first
    [ discriminate Hlook
    | injection Hlook as ->;
      first
        [ match goal with
          | H : index [] 0 = inr _ |- _ => discriminate H
          end
        | match goal with
          | H : index [] 0 = inl _ |- _ => cbv in H; injection H as <-
          end;
          first
            [ exists (inr tt); split; reflexivity
            | match goal with
              | |- context [(get_chain_exit, Raised ?e)] =>
                  exists (inl e); split; reflexivity
              end ] ] ].

Lemma main_without_accounts solver kw :
  given (owner kw) = None ->
  all_logs (main solver kw) (without_accounts kw).
Proof.
  intros Hnone.
  unfold main, with_chain, resolve_owner, resolve_prealloc_addresses,
    deploy_contracts.
  rewrite Hnone. simpl. explore.
  all: try no_account.
  all: simulation_tail ltac:(apply all_logs_always; intros; exact I);
    intros l' res _ r; no_account.
Qed.

(** X12. Without [--owner], when the chain has no account at all, the
    run stops at [web3.eth.accounts[0]]: it consists of creating the
    project, entering the chain context, the accounts query and leaving
    the context, and it ends with [IndexError] unless leaving raises
    something else; nothing is deployed. *)
Theorem no_account_no_deployment {W}
    (answer : forall c : call, W -> result (resp c) * W)
    (solver : Z -> Z -> Z -> Z -> Z -> result (Z * Z)) (kw : kwargs) (w : W) :
  let r := run answer (main solver kw) w in
  given (owner kw) = None ->
  log r !! 2%nat = Some (eth_accounts, Accounts []) ->
  exists left : result unit,
    log r = [(Project_new, Done); (get_chain_enter (chain kw), Done);
             (eth_accounts, Accounts []);
             (get_chain_exit, observe get_chain_exit left)]
    /\ returned r = after_exit left (inl IndexError).
Proof.
  intros r Hnone Hlook.
  exact (run_all_logs answer _ _ w (main_without_accounts solver kw Hnone)
           Hlook).
Qed.

Lemma no_account_no_deployment_witness :
  let r := run (quiet_chain []) (main imported_solver defaults) 0%nat in
  exists left : result unit,
    log r = [(Project_new, Done); (get_chain_enter (chain defaults), Done);
             (eth_accounts, Accounts []);
             (get_chain_exit, observe get_chain_exit left)]
    /\ returned r = after_exit left (inl IndexError).
Proof.
  apply (no_account_no_deployment (quiet_chain []) imported_solver defaults
           0%nat); reflexivity.
Defined.

(** X4. When the price points, a text of plain ASCII, cannot be turned
    into price parameters, because a field is missing or is not an
    integer or because the solver raises, [main] raises that exception
    right after creating the project: the chain context is not entered
    and nothing is deployed. *)
Theorem bad_price_points_stop_before_the_chain {W}
    (answer : forall c : call, W -> result (resp c) * W)
    (solver : Z -> Z -> Z -> Z -> Z -> result (Z * Z)) (kw : kwargs) (w : W)
    (e : exn) :
  let r := run answer (main solver kw) w in
  (forall text, price_points kw = Some text -> is_ascii text = true) ->
  price_parameters solver kw = inl e ->
  exists created_project : result unit,
    log r = [(Project_new, observe Project_new created_project)]
    /\ returned r = match created_project with
                    | inl e' => inl e'
                    | inr _ => inl e
                    end.
Proof.
  intros r _ Hbad. subst r.
  apply (run_all_logs answer (main solver kw)
           (fun l res =>
              exists created_project : result unit,
                l = [(Project_new, observe Project_new created_project)]
                /\ res = match created_project with
                         | inl e' => inl e'
                         | inr _ => inl e
                         end)).
  unfold main. simpl. intros [e' | []]; simpl.
  - now exists (inl e').
  - rewrite Hbad. simpl. now exists (inr tt).
Qed.

Lemma bad_price_points_stop_before_the_chain_witness :
  let r := run (quiet_chain two_accounts)
               (main imported_solver short_price_points) 0%nat in
  exists created_project : result unit,
    log r = [(Project_new, observe Project_new created_project)]
    /\ returned r = match created_project with
                    | inl e' => inl e'
                    | inr _ => inl IndexError
                    end.
Proof.
  apply (bad_price_points_stop_before_the_chain (quiet_chain two_accounts)
           imported_solver short_price_points 0%nat IndexError).
  - intros text [= <-]. reflexivity.
  - reflexivity.
Defined.

(** *** The fields of the price points *)

Lemma split_length text :
  List.length (split comma text) = S (commas text).
Proof.
  induction text as [| c text IH]; simpl; [ reflexivity | ].
  destruct (Ascii.eqb c comma); simpl.
  - now rewrite IH.
  - destruct (split comma text); simpl in *; [ discriminate IH | exact IH ].
Qed.

Lemma int_error s e : int s = inl e -> e = ValueError.
Proof.
  unfold int. destruct (int_of_chars (list_ascii_of_string s)); congruence.
Qed.

(** X5. A non-empty [--price-points] text of plain ASCII with fewer than
    three commas never reaches the solver: [main] raises [IndexError] for the missing
    field, or [ValueError] if a field before it is not an integer.  With
    three commas or more, the first four fields are used and the others
    are ignored; a field among the four that is not an integer gives
    [ValueError]. *)
Theorem price_point_fields
    (solver : Z -> Z -> Z -> Z -> Z -> result (Z * Z)) (kw : kwargs)
    (text : string) :
  price_points kw = Some text -> text <> EmptyString ->
  is_ascii text = true ->
  ((commas text < 3)%nat ->
   price_parameters solver kw = inl IndexError
   \/ price_parameters solver kw = inl ValueError)
  /\ (forall s0 s1 s2 s3 more,
        split comma text = s0 :: s1 :: s2 :: s3 :: more ->
        (forall n0 n1 n2 n3,
            int s0 = inr n0 -> int s1 = inr n1 ->
            int s2 = inr n2 -> int s3 = inr n3 ->
            price_parameters solver kw = solver n0 n1 n2 n3 multiplier)
        /\ ((exists e, int s0 = inl e \/ int s1 = inl e
                       \/ int s2 = inl e \/ int s3 = inl e) ->
            price_parameters solver kw = inl ValueError)).
Proof.
  intros Hpp Hne _. unfold price_parameters.
  rewrite Hpp, (given_nonempty text Hne). split.
  - intros Hcommas. pose proof (split_length text) as Hlen.
    destruct (split comma text) as [| s0 [| s1 [| s2 [| s3 more]]]];
      simpl in Hlen; try lia; simpl.
    + destruct (int s0) as [e |] eqn:H0; simpl;
        [ rewrite (int_error _ _ H0) | ]; auto.
    + destruct (int s0) as [e |] eqn:H0; simpl;
        [ rewrite (int_error _ _ H0); auto | ].
      destruct (int s1) as [e |] eqn:H1; simpl;
        [ rewrite (int_error _ _ H1) | ]; auto.
    + destruct (int s0) as [e |] eqn:H0; simpl;
        [ rewrite (int_error _ _ H0); auto | ].
      destruct (int s1) as [e |] eqn:H1; simpl;
        [ rewrite (int_error _ _ H1); auto | ].
      destruct (int s2) as [e |] eqn:H2; simpl;
        [ rewrite (int_error _ _ H2) | ]; auto.
  - intros s0 s1 s2 s3 more Hsplit. rewrite Hsplit. simpl. split.
    + intros n0 n1 n2 n3 H0 H1 H2 H3.
      rewrite H0. simpl. rewrite H1. simpl. rewrite H2. simpl.
      now rewrite H3.
    + intros [e Hbad].
      destruct (int s0) as [e0 |] eqn:H0; simpl;
        [ now rewrite (int_error _ _ H0) | ].
      destruct (int s1) as [e1 |] eqn:H1; simpl;
        [ now rewrite (int_error _ _ H1) | ].
      destruct (int s2) as [e2 |] eqn:H2; simpl;
        [ now rewrite (int_error _ _ H2) | ].
      destruct (int s3) as [e3 |] eqn:H3; simpl;
        [ now rewrite (int_error _ _ H3) | ].
      destruct Hbad as [Hbad | [Hbad | [Hbad | Hbad]]]; discriminate Hbad.
Qed.

Lemma price_point_fields_witness :
  (price_parameters imported_solver short_price_points = inl IndexError
   \/ price_parameters imported_solver short_price_points = inl ValueError)
  /\ price_parameters imported_solver with_price_points
     = imported_solver 100000000000000000 0 10000000000000000 540 multiplier.
Proof.
  split.
  - destruct (price_point_fields imported_solver short_price_points
                "100000000000000000,0,10000000000000000"%string eq_refl
                ltac:(discriminate) eq_refl) as [Hshort _].
    apply Hshort. vm_compute. lia.
  - destruct (price_point_fields imported_solver with_price_points
                "100000000000000000,0,10000000000000000,540"%string eq_refl
                ltac:(discriminate) eq_refl) as [_ Hfour].
    destruct (Hfour "100000000000000000" "0" "10000000000000000" "540" []
                eq_refl)%string as [Hints _].
    apply Hints; reflexivity.
Defined.
(** *** What the simulation finds *)

Lemma simulation_log_ready kw sender token_address auction_address l res :
  simulation_log kw sender token_address auction_address l res ->
  forall big, set_up_for big sender auction_address token_address ->
    Forall (fun e => ready_for big (fst e)) l.
Proof.
  intros H big Hbig. unfold simulation_log in H. cbv zeta in H.
  destruct H
    as [(e & -> & _)
       | (accounts & news & [(e & _ & -> & _) | (r & _ & -> & _)])].
  - repeat constructor.
  - constructor; [ exact I | ]. apply Forall_app. split.
    + now apply Forall_new_accounts.
    + repeat constructor.
  - constructor; [ exact I | ]. apply Forall_app. split.
    + now apply Forall_new_accounts.
    + apply List.Forall_cons; [ exact Hbig | apply List.Forall_nil ].
Qed.

Ltac set_up_at i :=
  exists i; do 11 eexists;
  repeat (split; [ first [ reflexivity | eassumption ] | ]);
  first [ reflexivity | eassumption ].

Ltac find_set_up :=
  unfold set_up_for; found_addresses;
  first [ set_up_at 4%nat | set_up_at 5%nat | set_up_at 6%nat
        | set_up_at 7%nat | set_up_at 8%nat | set_up_at 9%nat ].

Lemma main_simulates_when_ready solver kw :
  all_logs (main solver kw) (fun l _ => simulates_when_ready l).
Proof.
  explore_main.
  all: try (unfold simulates_when_ready;
            repeat (apply List.Forall_cons; [ exact I | ]);
            apply List.Forall_nil).
  all: simulation_tail ltac:(apply run_simulation_log);
    intros l' res Hlog r; unfold simulates_when_ready;
    repeat (apply List.Forall_cons; [ exact I | ]);
    apply Forall_app; split;
    [ apply (simulation_log_ready _ _ _ _ _ _ Hlog); find_set_up
    | apply List.Forall_cons; [ exact I | apply List.Forall_nil ] ].
Qed.

(** X14. The simulation is only ever started for an auction and a token
    that this run has deployed, confirmed and set up, in six consecutive
    calls sent from the account the simulation is started with; the two
    addresses it receives are those found in the two receipts. *)
Theorem simulation_starts_after_set_up {W}
    (answer : forall c : call, W -> result (resp c) * W)
    (solver : Z -> Z -> Z -> Z -> Z -> result (Z * Z)) (kw : kwargs) (w : W) :
  let l := log (run answer (main solver kw) w) in
  forall token_address auction_address sender bidder_addresses
         bids_number interval price o,
    In (auction_simulation token_address auction_address sender
          bidder_addresses bids_number interval price, o) l ->
    set_up_for l sender auction_address token_address.
Proof.
  intros l token_address auction_address sender bidder_addresses
    bids_number interval price o Hin.
  pose proof (run_all_logs answer _ (fun l _ => simulates_when_ready l) w
                (main_simulates_when_ready solver kw)) as H.
  fold l in H. unfold simulates_when_ready in H.
  rewrite List.Forall_forall in H. exact (H _ Hin).
Qed.

Lemma simulation_starts_after_set_up_witness :
  set_up_for
    (log (run (quiet_chain five_accounts) (main imported_solver rehearsal)
              0%nat))
    "0xboss" (VStr "at:0xtx0") (VStr "at:0xtx1").
Proof.
  apply (simulation_starts_after_set_up (quiet_chain five_accounts)
           imported_solver rehearsal 0%nat
           (VStr "at:0xtx1") (VStr "at:0xtx0") "0xboss"%string
           ["0xa3"; "0xa4"; "0xnew"; "0xnew"; "0xnew"]%string
           10 5 50000000000000000 Done).
  logged.
Defined.

(** *** Splitting an option at its commas *)

Lemma split_nonempty text : split comma text <> [].
Proof.
  pose proof (split_length text) as H. intros Heq. rewrite Heq in H.
  discriminate H.
Qed.

Lemma join_cons c field fields :
  join comma (String c field :: fields)
  = String c (join comma (field :: fields)).
Proof. destruct fields; reflexivity. Qed.

Lemma join_split text : join comma (split comma text) = text.
Proof.
  induction text as [| c text IH]; [ reflexivity | ].
  simpl. destruct (Ascii.eqb_spec c comma) as [-> | Hc].
  - destruct (split comma text) as [| field fields] eqn:Hs.
    + destruct (split_nonempty _ Hs).
    + change (String comma (join comma (field :: fields))
              = String comma text).
      now rewrite IH.
  - destruct (split comma text) as [| field fields] eqn:Hs.
    + destruct (split_nonempty _ Hs).
    + rewrite join_cons. now rewrite IH.
Qed.

Lemma split_fields text :
  Forall (fun field => commas field = 0%nat) (split comma text).
Proof.
  induction text as [| c text IH]; simpl.
  - repeat constructor.
  - destruct (Ascii.eqb c comma) eqn:Hc.
    + constructor; [ reflexivity | exact IH ].
    + destruct (split comma text) as [| field fields].
      * repeat constructor. simpl. now rewrite Hc.
      * inversion IH as [| ? ? Hfield Hfields]; subst.
        constructor; [ | exact Hfields ]. simpl. now rewrite Hc, Hfield.
Qed.

(** X13. Splitting the text of an option at its commas loses nothing:
    there is one piece more than there are commas, no piece contains a
    comma, and the pieces joined by commas are the text again. *)
Theorem split_keeps_the_text (text : string) :
  List.length (split comma text) = S (commas text)
  /\ Forall (fun field => commas field = 0%nat) (split comma text)
  /\ join comma (split comma text) = text.
Proof.
  split; [ apply split_length | ].
  split; [ apply split_fields | apply join_split ].
Qed.

(** *** From the contract factories to the deployments *)

Lemma proceeds_quiet pf pc supply amounts l :
  Forall (fun e : entry => simulation_call (fst e) \/ fst e = get_chain_exit) l ->
  proceeds pf pc supply amounts Idle l.
Proof.
  induction 1 as [| [c o] l Hc _ IH]; simpl; [ exact I | ].
  split; [ exact I | ].
  destruct Hc as [Hc | Hc]; simpl in Hc.
  - destruct c; try contradiction; exact IH.
  - subst c. exact IH.
Qed.

Lemma proceeds_simulation pf pc supply amounts l r :
  Forall (fun e : entry => simulation_call (fst e)) l ->
  proceeds pf pc supply amounts Idle
           (l ++ [(get_chain_exit, observe get_chain_exit r)]).
Proof.
  intros H. apply proceeds_quiet. apply Forall_app. split.
  - eapply Forall_impl; [ exact H | ]. intros e He. now left.
  - constructor; [ now right | constructor ].
Qed.

#[local] Transparent contract_address.

Lemma contract_address_of (receipt : gmap string pyval) a :
  receipt !! "contractAddress"%string = Some a ->
  contract_address receipt = inr a.
Proof. intros H. unfold contract_address. now rewrite H. Qed.

#[local] Opaque contract_address.

(** What [proceeds] says about the places of a log. *)
Lemma proceeds_sound pf pc supply amounts l : forall st,
  proceeds pf pc supply amounts st l ->
  (st = AuctionNext ->
   exists sender o,
     l !! 0%nat = Some (Auction_deploy sender [VInt pf; VInt pc], o))
  /\ (forall a, st = TokenNext a ->
      exists sender addresses o,
        l !! 0%nat
        = Some (Token_deploy sender
                  [a; VInt supply; VList addresses; VList amounts], o))
  /\ (st = AuctionSent ->
      forall tx receipt a,
        l !! 0%nat = Some (check_succesful_tx tx, Receipt receipt) ->
        receipt !! "contractAddress"%string = Some a ->
        exists sender addresses o,
          l !! 1%nat
          = Some (Token_deploy sender
                    [a; VInt supply; VList addresses; VList amounts], o))
  /\ (forall i,
      l !! i = Some (get_contract_factory "ReserveToken", Done) ->
      exists sender o,
        l !! S i = Some (Auction_deploy sender [VInt pf; VInt pc], o))
  /\ (forall i sender args tx tx' receipt a,
      l !! i = Some (Auction_deploy sender args, TxHash tx) ->
      l !! S i = Some (check_succesful_tx tx', Receipt receipt) ->
      receipt !! "contractAddress"%string = Some a ->
      exists sender' addresses o,
        l !! S (S i)
        = Some (Token_deploy sender'
                  [a; VInt supply; VList addresses; VList amounts], o)).
Proof.
  induction l as [| e l IH]; intros st H.
  - simpl in H.
    repeat split; intros; subst; try contradiction;
      try match goal with
          | Hl : [] !! _ = Some _ |- _ => rewrite lookup_nil in Hl; discriminate Hl
          end.
  - destruct H as [Hdue Hrest].
    destruct (IH _ Hrest) as (IH1 & IH2 & IH3 & IH4 & IH5).
    split; [ | split; [ | split; [ | split ] ] ].
    + intros ->. destruct Hdue as [sender Hs], e as [c o].
      simpl in Hs. subst c. now exists sender, o.
    + intros a ->. destruct Hdue as (sender & addresses & Hs), e as [c o].
      simpl in Hs. subst c. now exists sender, addresses, o.
    + intros -> tx receipt a Hhead Haddr.
      injection Hhead as ->.
      apply (IH2 a). simpl. now rewrite (contract_address_of _ _ Haddr).
    + intros [| i] Hi.
      * injection Hi as ->. apply IH1. reflexivity.
      * apply (IH4 i Hi).
    + intros [| i] sender args tx tx' receipt a Hi Hnext Haddr.
      * injection Hi as ->. apply (IH3 eq_refl tx' receipt a Hnext Haddr).
      * apply (IH5 i sender args tx tx' receipt a Hi Hnext Haddr).
Qed.

#[local] Arguments main_proceeds : simpl never.

Ltac price_known :=
  unfold main_proceeds; intros price_factor price_constant Hparameters;
  try match goal with
      | H : price_parameters _ _ = _ |- _ =>
          rewrite H in Hparameters;
          first [ discriminate Hparameters | injection Hparameters as <- <- ]
      end;
  simpl; known_addresses; simpl.

Lemma main_always_proceeds solver kw :
  all_logs (main solver kw) (main_proceeds solver kw).
Proof.
  explore_main.
  all: try solve [ price_known; repeat split; eauto ].
  all: simulation_tail ltac:(apply run_simulation_log);
    intros l' res Hlog r; price_known;
    repeat (split; eauto);
    apply proceeds_simulation; eapply simulation_log_calls, Hlog.
Qed.

Lemma elem_of_log (l : list entry) i e : l !! i = Some e -> In e l.
Proof.
  revert i. induction l as [| x l IH]; intros [| i] H; try discriminate H.
  - injection H as ->. now left.
  - right. apply (IH i H).
Qed.

(** Every run deploys the auction and the token as lines 146 and 153
    say. *)
Lemma main_deploys {W} (answer : forall c : call, W -> result (resp c) * W)
    solver kw w pf pc :
  let r := run answer (main solver kw) w in
  price_parameters solver kw = inr (pf, pc) ->
  deploys_auction pf pc (log r) (returned r)
  /\ deploys_token (supply kw * multiplier) (resolve_prealloc_amounts kw)
       (log r) (returned r).
Proof.
  intros r Hparameters.
  pose proof (run_all_logs answer _ _ w (main_always_proceeds solver kw)
                pf pc Hparameters) as Hproceeds.
  fold r in Hproceeds.
  destruct (proceeds_sound _ _ _ _ _ _ Hproceeds) as (_ & _ & _ & H4 & H5).
  pose proof (run_all_logs answer _ _ w (main_succeeds_in_full solver kw))
    as Hfull.
  fold r in Hfull.
  split; (split; [ assumption | ]); intros Hreturned;
    rewrite Hreturned in Hfull;
    destruct Hfull
      as (i & sender & pf' & pc' & tx1 & receipt1 & a & supply' & addresses
          & amounts & tx2 & receipt2 & t & tx3 & receipt3
          & Hauction & _ & _ & Htoken & _).
  - apply elem_of_log in Hauction.
    destruct (main_auction_args answer solver kw w _ _ _ Hauction)
      as (pf'' & pc'' & Hp & Hargs).
    rewrite Hparameters in Hp. injection Hp as <- <-.
    injection Hargs as -> ->.
    now exists sender, tx1.
  - apply elem_of_log in Htoken.
    destruct (main_token_args answer solver kw w _ _ _ Htoken)
      as (a' & addresses' & Hargs).
    injection Hargs as _ -> _ ->.
    now exists sender, a, addresses, tx2.
Qed.

(** Without price parameters a run is over after [Project()]. *)
Lemma main_without_parameters {W}
    (answer : forall c : call, W -> result (resp c) * W) solver kw w e :
  let r := run answer (main solver kw) w in
  price_parameters solver kw = inl e ->
  exists created_project : result unit,
    log r = [(Project_new, observe Project_new created_project)]
    /\ returned r <> inr tt.
Proof.
  intros r Hbad. subst r.
  apply (run_all_logs answer (main solver kw)
           (fun l res =>
              exists created_project : result unit,
                l = [(Project_new, observe Project_new created_project)]
                /\ res <> inr tt)).
  unfold main. simpl. intros [e' | []]; simpl.
  - now exists (inl e').
  - rewrite Hbad. simpl. now exists (inr tt).
Qed.

Lemma main_deploys_token {W}
    (answer : forall c : call, W -> result (resp c) * W) solver kw w :
  let r := run answer (main solver kw) w in
  deploys_token (supply kw * multiplier) (resolve_prealloc_amounts kw)
    (log r) (returned r).
Proof.
  intros r.
  destruct (price_parameters solver kw) as [e | [pf pc]] eqn:Hparameters.
  - destruct (main_without_parameters answer solver kw w e Hparameters)
      as (created_project & Hlog & Hreturned).
    fold r in Hlog, Hreturned. rewrite Hlog. split.
    + intros [| i] sender args tx tx' receipt a Hi; [ | discriminate Hi ].
      destruct created_project; discriminate Hi.
    + intros H. destruct (Hreturned H).
  - apply (main_deploys answer solver kw w pf pc Hparameters).
Qed.

Lemma typed_amounts kw text :
  prealloc_amounts kw = Some text -> text <> EmptyString ->
  resolve_prealloc_amounts kw = VStr <$> split comma text.
Proof.
  intros Htext Hne. unfold resolve_prealloc_amounts.
  now rewrite Htext, given_nonempty.
Qed.

Lemma default_amounts kw :
  prealloc_amounts kw = None \/ prealloc_amounts kw = Some EmptyString ->
  resolve_prealloc_amounts kw
  = [VInt (200000 * 10 ^ 18); VInt (800000 * 10 ^ 18)].
Proof.
  intros [H | H]; unfold resolve_prealloc_amounts; now rewrite H.
Qed.

End MainFacts.

(** ** What the two deployments receive *)

Module DeploymentFacts.
Import Py Deploy DeployFacts MainFacts.

(** C4. When [--price-points] holds four comma-separated integers, the
    auction is deployed with the pair the solver computes from them and
    the scale constant, and the values of [--price-factor] and
    [--price-constant] play no part; when the option is absent, the
    auction is deployed with those two values, 6 and 66 by default.
    Deployed: no deployment of the auction carries other arguments, the
    deployment is the call that follows the loading of the contract
    factories, and a run that returns has sent it. *)
Theorem price_points_take_precedence {W}
    (answer : forall c : call, W -> result (resp c) * W)
    (solver : Z -> Z -> Z -> Z -> Z -> result (Z * Z)) (kw : kwargs) (w : W) :
  let r := run answer (main solver kw) w in
  (forall text s0 s1 s2 s3 n0 n1 n2 n3,
      price_points kw = Some text ->
      split comma text = [s0; s1; s2; s3] ->
      int s0 = inr n0 -> int s1 = inr n1 ->
      int s2 = inr n2 -> int s3 = inr n3 ->
      (forall pf pc, main solver (set_price_options pf pc kw) = main solver kw)
      /\ (forall sender args o,
            In (Auction_deploy sender args, o) (log r) ->
            exists factor constant,
              solver n0 n1 n2 n3 multiplier = inr (factor, constant)
              /\ args = [VInt factor; VInt constant])
      /\ (forall factor constant,
            solver n0 n1 n2 n3 multiplier = inr (factor, constant) ->
            deploys_auction factor constant (log r) (returned r)))
  /\ (price_points kw = None ->
      (forall sender args o,
          In (Auction_deploy sender args, o) (log r) ->
          args = [VInt (price_factor kw); VInt (price_constant kw)])
      /\ deploys_auction (price_factor kw) (price_constant kw)
           (log r) (returned r))
  /\ price_factor defaults = 6 /\ price_constant defaults = 66.
Proof.
  intros r. split; [ | split; [ | split; reflexivity ] ].
  - intros text s0 s1 s2 s3 n0 n1 n2 n3 Hpp Hsplit H0 H1 H2 H3.
    pose proof (price_parameters_from_points solver kw _ _ _ _ _ _ _ _ _
                  Hpp Hsplit H0 H1 H2 H3) as Hsolved.
    split; [ | split ].
    + intros pf pc. eapply main_ignores_price_options;
        [ exact Hpp | eapply split_four_nonempty; eauto ].
    + intros sender args o Hin.
      apply main_auction_args in Hin as (pf & pc & Hparams & ->).
      exists pf, pc. split; [ | reflexivity ].
      now rewrite <- Hparams.
    + intros factor constant Hsolver.
      apply (main_deploys answer solver kw w factor constant).
      now rewrite Hsolved.
  - intros Hpp.
    assert (price_parameters solver kw
            = inr (price_factor kw, price_constant kw)) as Hparams
      by (unfold price_parameters; now rewrite Hpp).
    split.
    + intros sender args o Hin.
      apply main_auction_args in Hin as (pf & pc & Hparams' & ->).
      rewrite Hparams in Hparams'. now injection Hparams' as <- <-.
    + apply (main_deploys answer solver kw w _ _ Hparams).
Qed.

Lemma price_points_take_precedence_witness :
  (main imported_solver (set_price_options 6 66 with_price_points)
   = main imported_solver with_price_points
   /\ exists sender tx,
        In (Auction_deploy sender [VInt 6; VInt 60], TxHash tx)
           (log (run (quiet_chain two_accounts)
                     (main imported_solver with_price_points) 0%nat)))
  /\ exists sender tx,
       In (Auction_deploy sender [VInt 6; VInt 66], TxHash tx)
          (log (run (quiet_chain two_accounts)
                    (main imported_solver defaults) 0%nat)).
Proof.
  split.
  - destruct (price_points_take_precedence (quiet_chain two_accounts)
                imported_solver with_price_points 0%nat) as [H _].
    destruct (H _ "100000000000000000" "0" "10000000000000000" "540"
                100000000000000000 0 10000000000000000 540
                eq_refl eq_refl eq_refl eq_refl eq_refl eq_refl)%string
      as (Hignored & _ & Hdeploys).
    split; [ apply Hignored | ].
    destruct (Hdeploys 6 60 ltac:(vm_compute; reflexivity)) as [_ Hreturns].
    apply Hreturns. vm_compute. reflexivity.
  - destruct (price_points_take_precedence (quiet_chain two_accounts)
                imported_solver defaults 0%nat) as (_ & H & _).
    destruct (H eq_refl) as (_ & _ & Hreturns).
    apply Hreturns. vm_compute. reflexivity.
Defined.

(** C8. The scale constant is 10^18, and it is the value that each use
    of the name in [main] sees, no other value being bound to it on the
    way: the supply handed to the token deployment is the [--supply]
    value times 10^18 (line 86), so that the default 10000000 gives
    10^25; the solver is called with 10^18 (line 98); the default
    amounts are 200000 and 800000 times 10^18 (lines 130-131).  (The one
    other use, line 173, only formats a message.)  The token deployment
    with that supply is the call that follows the receipt of the
    auction's address, and a run that returns has sent it. *)
Theorem supply_is_scaled {W}
    (answer : forall c : call, W -> result (resp c) * W)
    (solver : Z -> Z -> Z -> Z -> Z -> result (Z * Z)) (kw : kwargs) (w : W) :
  let r := run answer (main solver kw) w in
  multiplier = 10 ^ 18
  /\ (forall sender args o,
        In (Token_deploy sender args, o) (log r) ->
        args !! 1%nat = Some (VInt (supply kw * 10 ^ 18)))
  /\ deploys_token (supply kw * 10 ^ 18) (resolve_prealloc_amounts kw)
       (log r) (returned r)
  /\ (forall text s0 s1 s2 s3 n0 n1 n2 n3,
        price_points kw = Some text ->
        split comma text = [s0; s1; s2; s3] ->
        int s0 = inr n0 -> int s1 = inr n1 ->
        int s2 = inr n2 -> int s3 = inr n3 ->
        price_parameters solver kw = solver n0 n1 n2 n3 (10 ^ 18))
  /\ (prealloc_amounts kw = None ->
      forall sender args o,
        In (Token_deploy sender args, o) (log r) ->
        args !! 3%nat
        = Some (VList [VInt (200000 * 10 ^ 18); VInt (800000 * 10 ^ 18)]))
  /\ supply defaults * multiplier = 10 ^ 25.
Proof.
  intros r.
  split; [ reflexivity | split; [ | split; [ | split; [ | split ] ] ] ].
  - intros sender args o Hin.
    apply main_token_args in Hin as (auction_address & addresses & ->).
    reflexivity.
  - apply (main_deploys_token answer solver kw w).
  - intros text s0 s1 s2 s3 n0 n1 n2 n3 Hpp Hsplit H0 H1 H2 H3.
    apply (price_parameters_from_points solver kw _ _ _ _ _ _ _ _ _
             Hpp Hsplit H0 H1 H2 H3).
  - intros Habsent sender args o Hin.
    apply main_token_args in Hin as (auction_address & addresses & ->).
    simpl. now rewrite default_amounts by now left.
  - reflexivity.
Qed.

Lemma supply_is_scaled_witness :
  exists sender auction_address addresses amounts tx,
    In (Token_deploy sender
          [auction_address; VInt (10 ^ 25); VList addresses; VList amounts],
        TxHash tx)
       (log (run (quiet_chain two_accounts) (main imported_solver defaults)
                 0%nat)).
Proof.
  destruct (supply_is_scaled (quiet_chain two_accounts) imported_solver
              defaults 0%nat) as (_ & _ & [_ Hreturns] & _).
  destruct (Hreturns ltac:(vm_compute; reflexivity))
    as (sender & auction_address & addresses & tx & Hin).
  exists sender, auction_address, addresses,
    (resolve_prealloc_amounts defaults), tx.
  exact Hin.
Defined.

(** C9, as amended.  When [--prealloc-amounts] holds a non-empty text,
    the amounts handed to the token deployment are its comma-separated
    pieces, as strings and unscaled; when the option is absent or empty
    they are the integers 200000 * 10^18 and 800000 * 10^18.  Handed to
    the deployment: no deployment of the token carries other amounts,
    the deployment is the call that follows the receipt of the auction's
    address, and a run that returns has sent it.  Typing "200000,800000"
    therefore does not give the default amounts. *)
Theorem prealloc_amounts_are_text {W}
    (answer : forall c : call, W -> result (resp c) * W)
    (solver : Z -> Z -> Z -> Z -> Z -> result (Z * Z)) (kw : kwargs) (w : W) :
  let r := run answer (main solver kw) w in
  (forall text, prealloc_amounts kw = Some text -> text <> EmptyString ->
     (forall sender args o,
         In (Token_deploy sender args, o) (log r) ->
         args !! 3%nat = Some (VList (VStr <$> split comma text)))
     /\ deploys_token (supply kw * multiplier) (VStr <$> split comma text)
          (log r) (returned r))
  /\ (prealloc_amounts kw = None \/ prealloc_amounts kw = Some EmptyString ->
      (forall sender args o,
          In (Token_deploy sender args, o) (log r) ->
          args !! 3%nat
          = Some (VList [VInt (200000 * 10 ^ 18); VInt (800000 * 10 ^ 18)]))
      /\ deploys_token (supply kw * multiplier)
           [VInt (200000 * 10 ^ 18); VInt (800000 * 10 ^ 18)]
           (log r) (returned r))
  /\ (prealloc_amounts kw = Some "200000,800000"%string ->
      forall sender args o,
        In (Token_deploy sender args, o) (log r) ->
        args !! 3%nat = Some (VList [VStr "200000"; VStr "800000"])
        /\ args !! 3%nat
           <> Some (VList [VInt (200000 * 10 ^ 18); VInt (800000 * 10 ^ 18)]))
  /\ resolve_prealloc_amounts with_amounts
     = [VStr "200000"; VStr "800000"]
  /\ resolve_prealloc_amounts with_amounts
     <> resolve_prealloc_amounts defaults.
Proof.
  intros r.
  pose proof (main_deploys_token answer solver kw w) as Hdeploys.
  fold r in Hdeploys.
  split; [ | split; [ | split; [ | split; [ reflexivity | discriminate ] ] ] ].
  - intros text Htext Hne.
    rewrite (typed_amounts kw text Htext Hne) in Hdeploys.
    split; [ | exact Hdeploys ].
    intros sender args o Hin.
    apply main_token_args in Hin as (auction_address & addresses & ->).
    simpl. now rewrite (typed_amounts kw text Htext Hne).
  - intros Habsent.
    rewrite (default_amounts kw Habsent) in Hdeploys.
    split; [ | exact Hdeploys ].
    intros sender args o Hin.
    apply main_token_args in Hin as (auction_address & addresses & ->).
    simpl. now rewrite (default_amounts kw Habsent).
  - intros Htext sender args o Hin.
    apply main_token_args in Hin as (auction_address & addresses & ->).
    simpl. rewrite (typed_amounts kw _ Htext) by discriminate.
    split; [ reflexivity | discriminate ].
Qed.

Lemma prealloc_amounts_are_text_witness :
  (exists sender auction_address addresses tx,
      In (Token_deploy sender
            [auction_address; VInt (10 ^ 25); VList addresses;
             VList [VStr "200000"; VStr "800000"]],
          TxHash tx)
         (log (run (quiet_chain two_accounts)
                   (main imported_solver with_amounts) 0%nat)))
  /\ exists sender auction_address addresses tx,
       In (Token_deploy sender
             [auction_address; VInt (10 ^ 25); VList addresses;
              VList [VInt (200000 * 10 ^ 18); VInt (800000 * 10 ^ 18)]],
           TxHash tx)
          (log (run (quiet_chain two_accounts)
                    (main imported_solver defaults) 0%nat)).
Proof.
  split.
  - destruct (prealloc_amounts_are_text (quiet_chain two_accounts)
                imported_solver with_amounts 0%nat) as (H & _).
    destruct (H "200000,800000"%string eq_refl ltac:(discriminate))
      as (_ & _ & Hreturns).
    apply Hreturns. vm_compute. reflexivity.
  - destruct (prealloc_amounts_are_text (quiet_chain two_accounts)
                imported_solver defaults 0%nat) as (_ & H & _).
    destruct (H (or_introl eq_refl)) as (_ & _ & Hreturns).
    apply Hreturns. vm_compute. reflexivity.
Defined.

End DeploymentFacts.
